(** * Student success dashboard: the scoring heuristic, the bulk-upload
    view and the analytics constants.

    The TypeScript components are embedded shallowly.  A JavaScript number is
    an IEEE 754 binary64 value, so the arithmetic of [handleSubmit] is carried
    out on Rocq's primitive [float]s, whose operations are specified by
    [SpecFloat] (the [Prim2SF] view).  React state is a record, a handler is a
    function from the state to the new state and the effects it emitted. *)

From Stdlib Require Import ZArith Bool List String Ascii DecimalString Lia.
From Stdlib Require Import Floats.
Import ListNotations.

Set Warnings "-inexact-float".

(** ** JavaScript numbers *)

Module Number.

Local Open Scope Z_scope.

Definition number := float.

(** The view of a number as sign, mantissa and exponent. *)
Definition SF (x : number) : spec_float := Prim2SF x.

(** [Math.max] and [Math.min] (ECMA-262, 21.3.2.24 and 21.3.2.25): a NaN
    among the arguments gives NaN; otherwise the arguments are folded from
    -Infinity (+Infinity), with +0 taken to be greater than -0. *)
Definition is_pos_zero (x : number) : bool := is_zero x && negb (get_sign x).
Definition is_neg_zero (x : number) : bool := is_zero x && get_sign x.

Definition max_step (highest x : number) : number :=
  if is_pos_zero x && is_neg_zero highest then zero
  else if (highest <? x)%float then x else highest.

Definition min_step (lowest x : number) : number :=
  if is_neg_zero x && is_pos_zero lowest then neg_zero
  else if (x <? lowest)%float then x else lowest.

Definition Math_max (args : list number) : number :=
  if existsb is_nan args then nan else fold_left max_step args neg_infinity.

Definition Math_min (args : list number) : number :=
  if existsb is_nan args then nan else fold_left min_step args infinity.

(** *** [parseFloat] (ECMA-262, 19.2.4) on ASCII text

    Leading white space is skipped, the longest prefix that is a
    [StrDecimalLiteral] is read, and its mathematical value is rounded to
    the nearest number; there is no such prefix exactly when the result is
    NaN. *)

Definition is_white (c : ascii) : bool :=
  let n := nat_of_ascii c in
  ((9 <=? n) && (n <=? 13) || (n =? 32))%nat.

Definition is_digit (c : ascii) : bool :=
  let n := nat_of_ascii c in ((48 <=? n) && (n <=? 57))%nat.

Definition digit_val (c : ascii) : Z := Z.of_nat (nat_of_ascii c) - 48.

Fixpoint skip_white (s : list ascii) : list ascii :=
  match s with
  | c :: t => if is_white c then skip_white t else s
  | [] => []
  end.

(** The digits at the head of [s]: their value after [acc], their count
    after [n], and the rest of the text. *)
Fixpoint take_digits (acc n : Z) (s : list ascii) : Z * Z * list ascii :=
  match s with
  | c :: t => if is_digit c then take_digits (10 * acc + digit_val c) (n + 1) t
              else (acc, n, s)
  | [] => (acc, n, [])
  end.

Fixpoint starts_with (p s : list ascii) : bool :=
  match p, s with
  | [], _ => true
  | a :: p', b :: s' => Ascii.eqb a b && starts_with p' s'
  | _ :: _, [] => false
  end.

(** [ExponentPart]: an indicator, an optional sign and at least one digit;
    anything else is not part of the literal. *)
Definition exponent_part (s : list ascii) : Z :=
  match s with
  | c :: t =>
      if Ascii.eqb c "e" || Ascii.eqb c "E" then
        let '(neg, t') :=
          match t with
          | d :: u => if Ascii.eqb d "-" then (true, u)
                      else if Ascii.eqb d "+" then (false, u) else (false, t)
          | [] => (false, t)
          end in
        let '(v, n, _) := take_digits 0 0 t' in
        if n =? 0 then 0 else if neg then - v else v
      else 0
  | [] => 0
  end.

(** The number nearest to [m * 10 ^ e10], for [m] positive. *)
Definition round_decimal (neg : bool) (m : positive) (e10 : Z) : spec_float :=
  match e10 with
  | Zneg k => SFdiv prec emax (S754_finite neg m 0)
                (S754_finite false (Pos.pow 10 k) 0)
  | _ => binary_normalize prec emax
           (cond_Zopp neg (Zpos m * 10 ^ e10)) 0 false
  end.

Definition unsigned_literal (neg : bool) (s : list ascii) : spec_float :=
  if starts_with (list_ascii_of_string "Infinity") s then S754_infinity neg
  else
    let '(ip, ni, r1) := take_digits 0 0 s in
    let '(fp, nf, r2) :=
      match r1 with
      | c :: t => if Ascii.eqb c "." then take_digits ip 0 t else (ip, 0, r1)
      | [] => (ip, 0, r1)
      end in
    if ni + nf =? 0 then S754_nan
    else
      match fp with
      | Zpos m => round_decimal neg m (exponent_part r2 - nf)
      | _ => S754_zero neg
      end.

Definition parseFloat (s : string) : number :=
  SF2Prim
    match skip_white (list_ascii_of_string s) with
    | c :: t =>
        if Ascii.eqb c "-" then unsigned_literal true t
        else if Ascii.eqb c "+" then unsigned_literal false t
        else unsigned_literal false (c :: t)
    | [] => S754_nan
    end.

(** [a || b] on strings: the empty string is the only falsy one. *)
Definition or_else (a b : string) : string :=
  if String.eqb a "" then b else a.

(** [x <= y] as JavaScript evaluates it: false when either side is NaN. *)
Definition leq (x y : number) : Prop := (x <=? y)%float = true.

Arguments leq (x y)%_float_scope.

(** [Number.MAX_VALUE]. *)
Definition max_value : number := 0x1.fffffffffffffp+1023%float.

(** A positive normal number, and a positive finite one. *)
Definition normal_pos (c : number) : bool :=
  match Prim2SF c with
  | S754_finite false m _ => 2 ^ (prec - 1) <=? Zpos m
  | _ => false
  end.

Definition pos_finite (c : number) : bool :=
  match Prim2SF c with
  | S754_finite false _ _ => true
  | _ => false
  end.

(** *** [Number.prototype.toFixed] (ECMA-262, 21.1.3.3)

    For a finite [x] below [10 ^ 21] in magnitude the digits are those of
    the integer [n] for which [n / 10 ^ f - x] is as close to zero as
    possible, the larger [n] if there are two.  From [10 ^ 21] on the
    standard defers to [ToString], which is not modelled: the result is
    [None] there. *)

(** The integer nearest to [m * 2 ^ e * 10 ^ f], the larger of two. *)
Definition nearest_scaled (f : Z) (m : positive) (e : Z) : Z :=
  match e with
  | Zneg k => (2 * Zpos m * 10 ^ f + 2 ^ Zpos k) / (2 * 2 ^ Zpos k)
  | _ => Zpos m * 2 ^ e * 10 ^ f
  end.

(** Whether [m * 2 ^ e] is at least the integer [b]. *)
Definition at_least (b : Z) (m : positive) (e : Z) : bool :=
  match e with
  | Zneg k => b * 2 ^ Zpos k <=? Zpos m
  | _ => b <=? Zpos m * 2 ^ e
  end.

Definition digits_of (n : Z) : string :=
  NilZero.string_of_uint (N.to_uint (Z.to_N n)).

Fixpoint zeros (k : nat) : string :=
  match k with
  | O => EmptyString
  | S k' => String "0" (zeros k')
  end.

(** The digits of [n] with a point before the last [f] of them. *)
Definition fixed_digits (f : nat) (n : Z) : string :=
  let m := digits_of n in
  match f with
  | O => m
  | _ =>
      let m' := String.append (zeros (S f - String.length m)) m in
      let k := String.length m' in
      String.append (substring 0 (k - f) m')
        (String.append "." (substring (k - f) f m'))
  end.

Definition toFixed (x : number) (f : nat) : option string :=
  match Prim2SF x with
  | S754_nan => Some "NaN"%string
  | S754_infinity false => Some "Infinity"%string
  | S754_infinity true => Some "-Infinity"%string
  | S754_zero _ => Some (fixed_digits f 0)
  | S754_finite s m e =>
      if at_least (10 ^ 21) m e then None
      else
        let body := fixed_digits f (nearest_scaled (Z.of_nat f) m e) in
        Some (if s then String.append "-" body else body)
  end.

(** The integer nearest to [x * 10 ^ f], for a finite [x] above zero (and 0
    otherwise): the digits [toFixed] shows for it. *)
Definition nearest (f : nat) (x : number) : Z :=
  match Prim2SF x with
  | S754_finite false m e => nearest_scaled (Z.of_nat f) m e
  | _ => 0
  end.

End Number.

Import Number.

(** ** Notifications and timers

    What a handler asks of its environment: a toast, a single-shot timer
    (the delay in milliseconds and what runs when it fires), a download. *)

Inductive Toast : Type :=
  | toast_success (msg : string)
  | toast_error (msg : string).

(** ** Single-student prediction view (PredictionForm) *)

Module PredictionForm.

Local Open Scope string_scope.
Local Open Scope float_scope.

Inductive Prediction : Type := Pass | Fail.
Inductive RiskLevel : Type := low | medium | high.

Record Factor : Type := { feature : string; impact : number }.

Record PredictionResult : Type := {
  prediction : Prediction;
  probability : number;
  topFactors : list Factor;
  riskLevel : RiskLevel
}.

Record FormData : Type := {
  studentId : string;
  semester : string;
  attendancePct : string;
  internalMarksAvg : string;
  culturalActivityScore : string;
  classParticipationScore : string;
  sportsActivityScore : string;
  curricularActivityScore : string
}.

Definition emptyForm : FormData :=
  {| studentId := ""; semester := ""; attendancePct := "";
     internalMarksAvg := ""; culturalActivityScore := "";
     classParticipationScore := ""; sportsActivityScore := "";
     curricularActivityScore := "" |}.

Record State : Type := {
  loading : bool;
  result : option PredictionResult;
  formData : FormData
}.

Definition initial : State :=
  {| loading := false; result := None; formData := emptyForm |}.

(** The body of the timer callback of [handleSubmit], value by value. *)

Definition attendance (fd : FormData) : number :=
  parseFloat (attendancePct fd).

Definition internalMarks (fd : FormData) : number :=
  parseFloat (internalMarksAvg fd).

Definition engagement (fd : FormData) : number :=
  (parseFloat (or_else (culturalActivityScore fd) "0") +
   parseFloat (or_else (classParticipationScore fd) "0") +
   parseFloat (or_else (sportsActivityScore fd) "0") +
   parseFloat (or_else (curricularActivityScore fd) "0")) / 4.

Definition score (fd : FormData) : number :=
  attendance fd * 0.3 + internalMarks fd * 0.5 + engagement fd * 2.

Definition probability_of (score : number) : number :=
  Math_min [Math_max [score / 100; 0.1]; 0.95].

Definition prediction_of (probability : number) : Prediction :=
  if 0.5 <? probability then Pass else Fail.

Definition riskLevel_of (probability : number) : RiskLevel :=
  if 0.7 <? probability then low
  else if 0.4 <? probability then medium else high.

Definition predict (fd : FormData) : PredictionResult :=
  let probability := probability_of (score fd) in
  {| prediction := prediction_of probability;
     probability := probability;
     topFactors :=
       [ {| feature := "Internal Marks"; impact := internalMarks fd |};
         {| feature := "Attendance"; impact := attendance fd |};
         {| feature := "Engagement Index"; impact := engagement fd * 10 |} ];
     riskLevel := riskLevel_of probability |}.

(** The six numeric inputs of the heuristic and the numbers read from them. *)
Inductive Field : Type :=
  | Attendance | InternalMarks
  | Cultural | ClassParticipation | Sports | Curricular.

Definition value (f : Field) (fd : FormData) : number :=
  match f with
  | Attendance => parseFloat (attendancePct fd)
  | InternalMarks => parseFloat (internalMarksAvg fd)
  | Cultural => parseFloat (or_else (culturalActivityScore fd) "0")
  | ClassParticipation => parseFloat (or_else (classParticipationScore fd) "0")
  | Sports => parseFloat (or_else (sportsActivityScore fd) "0")
  | Curricular => parseFloat (or_else (curricularActivityScore fd) "0")
  end.

(** Well-formed numeric input: every field reads as a finite number. *)
Definition wellFormed (fd : FormData) : Prop :=
  forall f, is_finite (value f fd) = true.

(** Two inputs agree on every numeric field but [f]. *)
Definition agreeExcept (f : Field) (fd fd' : FormData) : Prop :=
  forall g, g <> f -> value g fd = value g fd'.

(** A pending timer holds the form data its closure captured. *)
Record Timer : Type := { delay : Z; captured : FormData }.

Record Effects : Type := { toasts : list Toast; timers : list Timer }.

Definition handleSubmit (st : State) : State * Effects :=
  ({| loading := true; result := result st; formData := formData st |},
   {| toasts := []; timers := [ {| delay := 1500; captured := formData st |} ] |}).

Definition onTimeout (t : Timer) (st : State) : State * Effects :=
  ({| loading := false; result := Some (predict (captured t));
      formData := formData st |},
   {| toasts := [toast_success "Prediction completed successfully!"];
      timers := [] |}).

(** One submission: the handler runs, then its timer fires. *)
Definition submit (st : State) : State * list Toast :=
  let '(st1, e1) := handleSubmit st in
  fold_left
    (fun acc t => let '(st2, e2) := onTimeout t (fst acc) in
                  (st2, (snd acc ++ toasts e2)%list))
    (timers e1) (st1, toasts e1).

Definition handleInputChange (name value : string) (st : State) : State :=
  let fd := formData st in
  let pick field old := if String.eqb name field then value else old in
  {| loading := loading st; result := result st;
     formData :=
       {| studentId := pick "studentId" (studentId fd);
          semester := pick "semester" (semester fd);
          attendancePct := pick "attendancePct" (attendancePct fd);
          internalMarksAvg := pick "internalMarksAvg" (internalMarksAvg fd);
          culturalActivityScore :=
            pick "culturalActivityScore" (culturalActivityScore fd);
          classParticipationScore :=
            pick "classParticipationScore" (classParticipationScore fd);
          sportsActivityScore :=
            pick "sportsActivityScore" (sportsActivityScore fd);
          curricularActivityScore :=
            pick "curricularActivityScore" (curricularActivityScore fd) |} |}.

(** [formData[name]]: the field a name selects, if it is one of the eight. *)
Definition field (name : string) (fd : FormData) : option string :=
  if String.eqb name "studentId" then Some (studentId fd)
  else if String.eqb name "semester" then Some (semester fd)
  else if String.eqb name "attendancePct" then Some (attendancePct fd)
  else if String.eqb name "internalMarksAvg" then Some (internalMarksAvg fd)
  else if String.eqb name "culturalActivityScore"
       then Some (culturalActivityScore fd)
  else if String.eqb name "classParticipationScore"
       then Some (classParticipationScore fd)
  else if String.eqb name "sportsActivityScore"
       then Some (sportsActivityScore fd)
  else if String.eqb name "curricularActivityScore"
       then Some (curricularActivityScore fd)
  else None.

(** A sequence of edits, first to last. *)
Definition edit (edits : list (string * string)) (st : State) : State :=
  fold_left (fun acc nv => handleInputChange (fst nv) (snd nv) acc) edits st.

(** What the view renders of its state: the submit button, and the result
    card's confidence line and factor rows. *)
Definition submitDisabled (st : State) : bool := loading st.

Definition submitLabel (st : State) : string :=
  if loading st then "Predicting..." else "Predict Outcome".

Definition confidence (r : PredictionResult) : option string :=
  option_map (fun t => String.append t "%") (toFixed (probability r * 100) 1).

Definition factorText (fa : Factor) : option string := toFixed (impact fa) 1.

(** The operator's and the clock's events, and the configurations (state and
    pending timers) a mounted view can reach. *)
Inductive Event : Type :=
  | InputChange (name value : string)
  | Submit
  | Fire (t : Timer).

Definition handle (ev : Event) (st : State) : State * Effects :=
  match ev with
  | InputChange name value =>
      (handleInputChange name value st, {| toasts := []; timers := [] |})
  | Submit => handleSubmit st
  | Fire t => onTimeout t st
  end.

Inductive reachable : State -> list Timer -> Prop :=
  | reach_initial : reachable initial []
  | reach_handler ev st pending :
      reachable st pending ->
      (forall t, ev <> Fire t) ->
      reachable (fst (handle ev st))
                (pending ++ timers (snd (handle ev st)))%list
  | reach_fire t st before after :
      reachable st (before ++ t :: after)%list ->
      reachable (fst (onTimeout t st)) (before ++ after)%list.

(** The same, when the form is submitted through its button only, which is
    disabled while loading. *)
Inductive reachableUI : State -> list Timer -> Prop :=
  | ui_initial : reachableUI initial []
  | ui_input name value st pending :
      reachableUI st pending ->
      reachableUI (handleInputChange name value st) pending
  | ui_submit st pending :
      reachableUI st pending ->
      submitDisabled st = false ->
      reachableUI (fst (handleSubmit st))
                  (pending ++ timers (snd (handleSubmit st)))%list
  | ui_fire t st before after :
      reachableUI st (before ++ t :: after)%list ->
      reachableUI (fst (onTimeout t st)) (before ++ after)%list.

(** The declared range of each numeric field: 0 to 100 for attendance and
    internal marks, 0 to 10 for the activity scores. *)
Definition within (lo hi x : number) : Prop := leq lo x /\ leq x hi.

Definition isActivity (f : Field) : bool :=
  match f with
  | Attendance | InternalMarks => false
  | _ => true
  end.

Definition upper (f : Field) : number := if isActivity f then 10 else 100.

Definition inRange (fd : FormData) : Prop :=
  forall f, within 0 (upper f) (value f fd).

(** Risk levels from worst to best. *)
Definition riskRank (r : RiskLevel) : nat :=
  match r with high => 0 | medium => 1 | low => 2 end.

End PredictionForm.

(** ** Bulk-upload view (BulkUpload) *)

Module BulkUpload.

Local Open Scope string_scope.

Record File : Type := { name : string }.

Record State : Type := { file : option File; uploading : bool }.

Definition initial : State := {| file := None; uploading := false |}.

Record Blob : Type := { content : string; type : string }.

Record Download : Type := { href : Blob; download : string }.

(** A pending timer holds the file its closure captured. *)
Record Timer : Type := { delay : Z; captured : File }.

Record Effects : Type := {
  toasts : list Toast;
  timers : list Timer;
  downloads : list Download
}.

Definition quiet : Effects :=
  {| toasts := []; timers := []; downloads := [] |}.

(** [e.target.files] is null or a list of files; [files[0]] is undefined
    on the empty list. *)
Definition handleFileChange (files : option (list File)) (st : State)
  : State * Effects :=
  match files with
  | Some (f :: _) =>
      ({| file := Some f; uploading := uploading st |},
       {| toasts := [toast_success ("File selected: " ++ name f)];
          timers := []; downloads := [] |})
  | _ => (st, quiet)
  end.

Definition handleUpload (st : State) : State * Effects :=
  match file st with
  | None =>
      (st, {| toasts := [toast_error "Please select a file first"];
              timers := []; downloads := [] |})
  | Some f =>
      ({| file := file st; uploading := true |},
       {| toasts := []; timers := [ {| delay := 2000; captured := f |} ];
          downloads := [] |})
  end.

Definition onTimeout (t : Timer) (st : State) : State * Effects :=
  ({| file := None; uploading := false |},
   {| toasts := [toast_success ("Successfully processed " ++ name (captured t))];
      timers := []; downloads := [] |}).

Definition csvContent : string :=
"student_id,semester,attendance_pct,internal_marks_avg,cultural_activity_score,class_participation_score,sports_activity_score,curricular_activity_score
1DA23IS001,5,87.5,72,7,8,5,9
1DA23IS002,5,62.0,48,3,4,6,2
1DA23IS003,6,91.2,85,9,9,7,10".

Definition downloadTemplate (st : State) : State * Effects :=
  let blob := {| content := csvContent; type := "text/csv" |} in
  (st, {| toasts := [toast_success "Template downloaded successfully!"];
          timers := [];
          downloads := [ {| href := blob;
                            download := "student_data_template.csv" |} ] |}).

(** The operator's and the clock's events, and the states they lead to. *)
Inductive Event : Type :=
  | FileChange (files : option (list File))
  | Upload
  | DownloadTemplate
  | Fire (t : Timer).

Definition handle (ev : Event) (st : State) : State * Effects :=
  match ev with
  | FileChange files => handleFileChange files st
  | Upload => handleUpload st
  | DownloadTemplate => downloadTemplate st
  | Fire t => onTimeout t st
  end.

(** A run from the mounted view: a timer fires only after the upload that
    set it, so the pending timers are part of the configuration. *)
Inductive reachable : State -> list Timer -> Prop :=
  | reach_initial : reachable initial []
  | reach_handler ev st pending :
      reachable st pending ->
      (forall t, ev <> Fire t) ->
      reachable (fst (handle ev st))
                (pending ++ timers (snd (handle ev st)))%list
  | reach_fire t st before after :
      reachable st (before ++ t :: after)%list ->
      reachable (fst (onTimeout t st)) (before ++ after)%list.

(** The CSV as the specification's external-interface section lists it:
    a header row and three example rows, one per line. *)
Definition spec_header : string :=
  "student_id,semester,attendance_pct,internal_marks_avg,cultural_activity_score,class_participation_score,sports_activity_score,curricular_activity_score".

Definition spec_rows : list string :=
  [ "1DA23IS001,5,87.5,72,7,8,5,9";
    "1DA23IS002,5,62.0,48,3,4,6,2";
    "1DA23IS003,6,91.2,85,9,9,7,10" ].

Definition newline : string := String (ascii_of_nat 10) EmptyString.

Definition spec_csv : string := String.concat newline (spec_header :: spec_rows).

(** What the view renders of its state: the upload button and the caption
    over the file picker. *)
Definition uploadDisabled (st : State) : bool :=
  match file st with
  | None => true
  | Some _ => uploading st
  end.

Definition uploadLabel (st : State) : string :=
  if uploading st then "Processing..." else "Upload & Predict".

Definition caption (st : State) : string :=
  match file st with
  | Some f => name f
  | None => "Select a CSV file to upload"
  end.

(** The configurations reached when Upload & Predict is invoked through its
    button only, which is disabled without a file and while uploading. *)
Inductive reachableUI : State -> list Timer -> Prop :=
  | ui_initial : reachableUI initial []
  | ui_file files st pending :
      reachableUI st pending ->
      reachableUI (fst (handleFileChange files st)) pending
  | ui_template st pending :
      reachableUI st pending ->
      reachableUI (fst (downloadTemplate st)) pending
  | ui_upload st pending :
      reachableUI st pending ->
      uploadDisabled st = false ->
      reachableUI (fst (handleUpload st))
                  (pending ++ timers (snd (handleUpload st)))%list
  | ui_fire t st before after :
      reachableUI st (before ++ t :: after)%list ->
      reachableUI (fst (onTimeout t st)) (before ++ after)%list.

End BulkUpload.

(** ** Cohort analytics view (Analytics) *)

Module Analytics.

Local Open Scope string_scope.
Local Open Scope Z_scope.

Record Segment : Type := { name : string; value : Z; color : string }.

Definition riskDistribution : list Segment :=
  [ {| name := "Low Risk"; value := 120; color := "hsl(var(--accent))" |};
    {| name := "Medium Risk"; value := 45; color := "hsl(var(--chart-4))" |};
    {| name := "High Risk"; value := 18; color := "hsl(var(--destructive))" |} ].

(** The summary cards: the title text and the description under it. *)
Record Card : Type := { title : string; description : string }.

Definition cards : list Card :=
  [ {| title := "183"; description := "Total Students Analyzed" |};
    {| title := "87.4%"; description := "Model Accuracy" |};
    {| title := "18"; description := "High Risk Students" |} ].

(** The pie chart draws one segment per entry of its [data], sized by the
    field named by [dataKey]. *)
Definition pieValues (data : list Segment) : list Z := map value data.

Definition total (vs : list Z) : Z := fold_right Z.add 0 vs.

Definition cardTitle (descr : string) : option string :=
  option_map title
    (find (fun c => String.eqb (description c) descr) cards).

Definition segmentValue (n : string) : option Z :=
  option_map value
    (find (fun s => String.eqb (name s) n) riskDistribution).

(** A count as the text a card shows. *)
Definition show (n : Z) : string :=
  NilZero.string_of_int (Z.to_int n).

End Analytics.

(** ** The specification's reading of the heuristic

    The formula as the specification writes it, weights first, with the
    mean of the four activity scores and an absent score counted as 0. *)

Module Spec.

Import PredictionForm.
Local Open Scope float_scope.

Definition numeric (s : string) : number := parseFloat s.

Definition activity (s : string) : number :=
  if String.eqb s "" then 0 else parseFloat s.

Definition mean4 (a b c d : number) : number := (a + b + c + d) / 4.

Definition engagement (fd : FormData) : number :=
  mean4 (activity (culturalActivityScore fd))
        (activity (classParticipationScore fd))
        (activity (sportsActivityScore fd))
        (activity (curricularActivityScore fd)).

Definition score (fd : FormData) : number :=
  0.30 * numeric (attendancePct fd) + 0.50 * numeric (internalMarksAvg fd)
  + 2.0 * engagement fd.

Definition clamp (x lo hi : number) : number :=
  if x <? lo then lo else if hi <? x then hi else x.

(** The second example row of the template, as the form holds it. *)
Definition row2 : FormData :=
  {| studentId := "1DA23IS002"; semester := "5";
     attendancePct := "62.0"; internalMarksAvg := "48";
     culturalActivityScore := "3"; classParticipationScore := "4";
     sportsActivityScore := "6"; curricularActivityScore := "2" |}.

(** The same row with a higher attendance. *)
Definition row2_attending : FormData :=
  {| studentId := "1DA23IS002"; semester := "5";
     attendancePct := "70.5"; internalMarksAvg := "48";
     culturalActivityScore := "3"; classParticipationScore := "4";
     sportsActivityScore := "6"; curricularActivityScore := "2" |}.

End Spec.

(** ** Rounding to the format, on integers

    The vocabulary of the proofs about [SpecFloat]'s rounding.  A value that
    lies between two mantissas is kept as a position code: four times the
    mantissa below it, plus 0 when it is that mantissa, 1 when it is below
    the midpoint, 2 at the midpoint and 3 above it. *)

Module Rounding.

Local Open Scope Z_scope.

(** The code of the quotient [N / D]: twice the floor of [2N / D], plus one
    when [2N / D] is not an integer. *)
Definition code (N D : Z) : Z :=
  2 * (2 * N / D) + (if (2 * N) mod D =? 0 then 0 else 1).

(** The code after dropping [n] more binary digits of the mantissa. *)
Definition shn (n k : Z) : Z := code k (4 * 2 ^ n).

(** Round to nearest, ties to even, from a code to a mantissa. *)
Definition rne (k : Z) : Z :=
  let m := k / 4 in
  match k mod 4 with
  | 2 => if Z.even m then m else m + 1
  | 3 => m + 1
  | _ => m
  end.

Definition loc_code (l : location) : Z :=
  match l with
  | loc_Exact => 0
  | loc_Inexact Lt => 1
  | loc_Inexact Eq => 2
  | loc_Inexact Gt => 3
  end.

Definition code_of_rec (mrs : shr_record) : Z :=
  4 * shr_m mrs + 2 * Z.b2z (shr_r mrs) + Z.b2z (shr_s mrs).

Definition nonnegative (x : spec_float) : Prop :=
  match x with
  | S754_zero false | S754_infinity false | S754_finite false _ _ => True
  | _ => False
  end.

Definition finite_or_zero (x : spec_float) : Prop :=
  match x with
  | S754_zero _ | S754_finite _ _ _ => True
  | _ => False
  end.

Section Format.

Variables prec emax : Z.

(** The last step of [binary_round_aux]: a rounded mantissa [M] at exponent
    [g] is renormalised and checked for overflow. *)
Definition finish (s : bool) (M g : Z) : spec_float :=
  let '(mrs, e) := shr_fexp prec emax M g loc_Exact in
  match shr_m mrs with
  | Z0 => S754_zero s
  | Zpos m => if e <=? emax - prec then S754_finite s m e else S754_infinity s
  | Zneg _ => S754_nan
  end.

Definition rounded (M g : Z) : Prop :=
  0 <= M <= 2 ^ prec /\ SpecFloat.emin prec emax <= g /\
  (SpecFloat.emin prec emax < g -> 2 ^ (prec - 1) <= M).

Definition nexp (M g : Z) : Z := if M <? 2 ^ prec then g else g + 1.

Definition nman (M : Z) : Z := if M <? 2 ^ prec then M else 2 ^ (prec - 1).

(** Rounding a position code [k] at exponent [e] to the format. *)
Definition round_code (s : bool) (k e : Z) : spec_float :=
  let g := SpecFloat.fexp prec emax (Zdigits2 (k / 4) + e) in
  finish s (rne (shn (g - e) k)) g.

(** The value of a finite number, in units of the least subnormal. *)
Definition Zval (x : spec_float) : Z :=
  match x with
  | S754_finite s m e =>
      cond_Zopp s (Zpos m * 2 ^ (e - SpecFloat.emin prec emax))
  | _ => 0
  end.

(** Rounding [N * A / D] units of [2 ^ e], and its signed version: what an
    operation returns for the exact value [V]. *)
Definition pround (A D e N : Z) : spec_float :=
  round_code false (code (N * A) D) e.

Definition sround (A D e V : Z) (X : spec_float) : Prop :=
  (V = 0 /\ exists s, X = S754_zero s) \/
  (0 < V /\ X = pround A D e V) \/
  (V < 0 /\ X = SFopp (pround A D e (- V))).

End Format.

End Rounding.

(** * Properties *)

(** ** Numbers *)

Lemma parseFloat_examples :
  map (fun s => SF (parseFloat s))
      ["62.0"; "48"; "0"; "87.5"; "0.1"; "91.2"; "-0"; ""; "abc"; " 7e-1x";
       ".5"; "5."; "1e400"; "-Infinity"; "4.9e-324"; "2.4e-324"]%string
  = map SF [62; 48; 0; 87.5; 0.1; 91.2; neg_zero; nan; nan; 0.7;
            0.5; 5; infinity; neg_infinity; 4.9e-324; 0]%float.
Proof. vm_compute. reflexivity. Qed.

Lemma SFmul_comm x y : SFmul prec emax x y = SFmul prec emax y x.
Proof.
  destruct x as [sx|sx| |sx mx ex], y as [sy|sy| |sy my ey]; simpl;
    try reflexivity; try (now rewrite xorb_comm).
  now rewrite xorb_comm, Pos.mul_comm, Z.add_comm.
Qed.

Lemma mul_comm (x y : number) : (x * y = y * x)%float.
Proof.
  apply Prim2SF_inj. rewrite !mul_spec. apply SFmul_comm.
Qed.

Lemma SFcompare_swap x y :
  SFcompare y x = option_map CompOpp (SFcompare x y).
Proof.
  destruct x as [sx|sx| |sx mx ex], y as [sy|sy| |sy my ey]; simpl;
    try reflexivity;
    try (destruct sx; reflexivity); try (destruct sy; reflexivity);
    try (destruct sx, sy; reflexivity).
  destruct sx, sy; try reflexivity;
    rewrite (Z.compare_antisym ey ex);
    destruct (ey ?= ex)%Z; simpl; try reflexivity;
    rewrite (Pos.compare_cont_antisym mx my Eq); simpl;
    now rewrite ?CompOpp_involutive.
Qed.

Lemma SFcompare_None x y :
  SFcompare x y = None -> x = S754_nan \/ y = S754_nan.
Proof.
  destruct x as [sx|sx| |sx mx ex], y as [sy|sy| |sy my ey]; simpl;
    try discriminate; auto.
Qed.

Lemma is_nan_SF (x : number) : is_nan x = false <-> Prim2SF x <> S754_nan.
Proof.
  unfold is_nan. rewrite negb_false_iff, eqb_spec. unfold SFeqb.
  destruct (SFcompare (Prim2SF x) (Prim2SF x)) as [c|] eqn:E.
  - assert (Prim2SF x <> S754_nan) by (intros H; rewrite H in E; discriminate).
    pose proof (SFcompare_swap (Prim2SF x) (Prim2SF x)) as S.
    rewrite E in S. destruct c; try discriminate; tauto.
  - apply SFcompare_None in E. split; [discriminate | tauto].
Qed.

Lemma ltb_false_leb (x y : number) :
  is_nan x = false -> is_nan y = false ->
  (x <? y)%float = false -> (y <=? x)%float = true.
Proof.
  rewrite !is_nan_SF, ltb_spec, leb_spec. unfold SFltb, SFleb.
  rewrite (SFcompare_swap (Prim2SF x) (Prim2SF y)).
  destruct (SFcompare (Prim2SF x) (Prim2SF y)) as [[]|] eqn:E; simpl;
    try congruence.
  apply SFcompare_None in E. tauto.
Qed.

Lemma ltb_not_nan (x y : number) :
  (x <? y)%float = true -> is_nan x = false /\ is_nan y = false.
Proof.
  rewrite !is_nan_SF, ltb_spec. unfold SFltb.
  destruct (Prim2SF x), (Prim2SF y); simpl; try discriminate;
    intros _; split; discriminate.
Qed.

Lemma ltb_leb_false (x y : number) :
  (x <? y)%float = true -> (y <=? x)%float = false.
Proof.
  rewrite ltb_spec, leb_spec. unfold SFltb, SFleb.
  rewrite (SFcompare_swap (Prim2SF x) (Prim2SF y)).
  destruct (SFcompare (Prim2SF x) (Prim2SF y)) as [[]|]; simpl; congruence.
Qed.

(** ** Rounding: position codes *)

Import Rounding.
Local Open Scope Z_scope.

Lemma code_range N D : 0 <= N -> 0 < D -> 0 <= code N D.
Proof.
  intros HN HD. unfold code.
  assert (0 <= 2 * N / D) by (apply Z.div_pos; lia).
  destruct (_ =? 0); lia.
Qed.

(** Coding a code again is coding the quotient by the product. *)
Lemma code_compose N D E :
  0 <= N -> 0 < D -> 0 < E -> code (code N D) (4 * E) = code N (D * E).
Proof.
  intros HN HD HE. unfold code.
  set (a := 2 * N / D). set (r := (2 * N) mod D).
  assert (Ha : 0 <= a) by (apply Z.div_pos; lia).
  assert (Hr : 0 <= r < D) by (apply Z.mod_pos_bound; lia).
  assert (E1 : 2 * N / (D * E) = a / E) by (unfold a; now rewrite Z.div_div by lia).
  assert (E2 : (2 * N) mod (D * E) = r + D * (a mod E))
    by (unfold a, r; apply Z.rem_mul_r; lia).
  rewrite E1, E2.
  assert (Hq : 0 <= a mod E < E) by (apply Z.mod_pos_bound; lia).
  set (b := if r =? 0 then 0 else 1).
  assert (Hb : (b = 0 /\ r = 0) \/ (b = 1 /\ 0 < r)).
  { unfold b. destruct (Z.eqb_spec r 0); lia. }
  assert (Ea : a = E * (a / E) + a mod E) by (apply Z.div_mod; lia).
  assert (Q : 2 * (2 * a + b) / (4 * E) = a / E).
  { symmetry. apply Z.div_unique with (2 * (2 * (a mod E) + b)); nia. }
  assert (R : (2 * (2 * a + b)) mod (4 * E) = 2 * (2 * (a mod E) + b)).
  { symmetry. apply Z.mod_unique with (a / E); nia. }
  rewrite Q, R.
  destruct (Z.eqb_spec (2 * (2 * (a mod E) + b)) 0),
           (Z.eqb_spec (r + D * (a mod E)) 0); nia.
Qed.

(** A code depends on the quotient only. *)
Lemma code_scale N D c : 0 < D -> 0 < c -> code (N * c) (D * c) = code N D.
Proof.
  intros HD Hc. unfold code.
  replace (2 * (N * c)) with (2 * N * c) by ring.
  rewrite Z.div_mul_cancel_r by lia.
  rewrite Z.mul_mod_distr_r by lia.
  destruct (Z.eqb_spec ((2 * N) mod D * c) 0), (Z.eqb_spec ((2 * N) mod D) 0); nia.
Qed.

Lemma code_mono N N' D : 0 < D -> N <= N' -> code N D <= code N' D.
Proof.
  intros HD H. unfold code.
  assert (Q : 2 * N / D <= 2 * N' / D) by (apply Z.div_le_mono; lia).
  pose proof (Z.div_mod (2 * N) D ltac:(lia)).
  pose proof (Z.div_mod (2 * N') D ltac:(lia)).
  pose proof (Z.mod_pos_bound (2 * N) D HD).
  pose proof (Z.mod_pos_bound (2 * N') D HD).
  destruct (Z.eqb_spec ((2 * N) mod D) 0), (Z.eqb_spec ((2 * N') mod D) 0); nia.
Qed.

Lemma code_exact N : code N 1 = 4 * N.
Proof. unfold code. rewrite Z.div_1_r, Z.mod_1_r, Z.eqb_refl. lia. Qed.

Lemma code_id k : code k 4 = k.
Proof.
  unfold code. destruct (Z.eqb_spec ((2 * k) mod 4) 0);
    Z.div_mod_to_equations; lia.
Qed.

Lemma code_div4 N D : 0 <= N -> 0 < D -> code N D / 4 = N / D.
Proof.
  intros HN HD. unfold code.
  assert (E : N / D = 2 * N / D / 2).
  { rewrite Z.div_div by lia. rewrite (Z.mul_comm D 2).
    now rewrite Z.div_mul_cancel_l by lia. }
  rewrite E. set (a := 2 * N / D).
  destruct (_ =? 0); Z.div_mod_to_equations; lia.
Qed.

Lemma shn_0 k : shn 0 k = k.
Proof. apply code_id. Qed.

Lemma shn_code n N D : 0 <= n -> 0 <= N -> 0 < D -> shn n (code N D) = code N (D * 2 ^ n).
Proof.
  intros. unfold shn. apply code_compose; trivial. apply Z.pow_pos_nonneg; lia.
Qed.

Lemma shn_mono n k k' : 0 <= n -> k <= k' -> shn n k <= shn n k'.
Proof.
  intros. apply code_mono; trivial.
  assert (0 < 2 ^ n) by (apply Z.pow_pos_nonneg; lia). lia.
Qed.

Lemma shn_div4 n k : 0 <= n -> 0 <= k -> shn n k / 4 = k / 4 / 2 ^ n.
Proof.
  intros. unfold shn.
  assert (0 < 2 ^ n) by (apply Z.pow_pos_nonneg; lia).
  rewrite code_div4 by lia. now rewrite Z.div_div by lia.
Qed.

Lemma rne_bounds k : k / 4 <= rne k <= k / 4 + 1.
Proof.
  unfold rne. destruct (k mod 4) as [|[[|[]|]|[|[]|]|]|]; try lia;
    destruct (Z.even _); lia.
Qed.

Lemma rne_mono k k' : k <= k' -> rne k <= rne k'.
Proof.
  intros H.
  assert (Q : k / 4 <= k' / 4) by (apply Z.div_le_mono; lia).
  destruct (Z.eq_dec (k / 4) (k' / 4)) as [E|NE].
  - unfold rne. rewrite <- E.
    assert (M : k mod 4 <= k' mod 4) by (Z.div_mod_to_equations; lia).
    pose proof (Z.mod_pos_bound k 4 ltac:(lia)).
    pose proof (Z.mod_pos_bound k' 4 ltac:(lia)).
    destruct (k mod 4) as [|[[|[]|]|[|[]|]|]|], (k' mod 4) as [|[[|[]|]|[|[]|]|]|];
      try lia; destruct (Z.even _); lia.
  - pose proof (rne_bounds k). pose proof (rne_bounds k'). lia.
Qed.

Lemma shn_compose a b k :
  0 <= a -> 0 <= b -> 0 <= k -> shn a (shn b k) = shn (a + b) k.
Proof.
  intros Ha Hb Hk. unfold shn.
  assert (0 < 2 ^ a) by (apply Z.pow_pos_nonneg; lia).
  assert (0 < 2 ^ b) by (apply Z.pow_pos_nonneg; lia).
  rewrite code_compose by lia.
  f_equal. rewrite Z.pow_add_r by lia. ring.
Qed.

Lemma shn_range n k : 0 <= n -> 0 <= k -> 0 <= shn n k.
Proof.
  intros. apply code_range; trivial.
  assert (0 < 2 ^ n) by (apply Z.pow_pos_nonneg; lia). lia.
Qed.

Lemma code_of_rec_loc m l :
  code_of_rec (shr_record_of_loc m l) = 4 * m + loc_code l.
Proof. destruct l as [|[]]; unfold code_of_rec; simpl; lia. Qed.

Lemma code_of_rec_m mrs : shr_m mrs = code_of_rec mrs / 4.
Proof.
  unfold code_of_rec. destruct (shr_r mrs), (shr_s mrs); simpl Z.b2z;
    Z.div_mod_to_equations; lia.
Qed.

Lemma code_of_rec_rne mrs :
  round_nearest_even (shr_m mrs) (loc_of_shr_record mrs) = rne (code_of_rec mrs).
Proof.
  destruct mrs as [m r s]. unfold rne, code_of_rec.
  simpl shr_m. simpl shr_r. simpl shr_s.
  set (c := 2 * Z.b2z r + Z.b2z s).
  assert (Hc : 0 <= c < 4) by (unfold c; destruct r, s; simpl; lia).
  replace (4 * m + 2 * Z.b2z r + Z.b2z s) with (4 * m + c) by (unfold c; lia).
  assert (E1 : (4 * m + c) / 4 = m) by (Z.div_mod_to_equations; lia).
  assert (E2 : (4 * m + c) mod 4 = c) by (Z.div_mod_to_equations; lia).
  rewrite E1, E2. unfold c. destruct r, s; reflexivity.
Qed.

(** One step of [shr_1] drops one digit of the code. *)
Lemma shr_1_code mrs :
  0 <= shr_m mrs ->
  code_of_rec (shr_1 mrs) = shn 1 (code_of_rec mrs) /\ 0 <= shr_m (shr_1 mrs).
Proof.
  destruct mrs as [m r s]. simpl shr_m. intros Hm.
  unfold shn, code, code_of_rec.
  change (4 * 2 ^ 1) with 8.
  destruct m as [|[p|p|]|p]; try lia; destruct r, s; simpl shr_1; simpl shr_m;
    simpl shr_r; simpl shr_s; simpl Z.b2z; simpl orb;
    (split; [|lia]);
    match goal with |- context [(?x mod 8 =? 0)] => destruct (Z.eqb_spec (x mod 8) 0) end;
    Z.div_mod_to_equations; lia.
Qed.

(** [iter_pos shr_1 p] drops [p] digits. *)
Lemma iter_pos_shr_code p : forall mrs,
  0 <= shr_m mrs ->
  code_of_rec (iter_pos shr_1 p mrs) = shn (Zpos p) (code_of_rec mrs) /\
  0 <= shr_m (iter_pos shr_1 p mrs).
Proof.
  assert (K : forall mrs, 0 <= shr_m mrs -> 0 <= code_of_rec mrs).
  { intros mrs H. unfold code_of_rec.
    destruct (shr_r mrs), (shr_s mrs); cbn [Z.b2z]; lia. }
  induction p as [p IH|p IH|]; intros mrs Hm; simpl iter_pos.
  - destruct (shr_1_code mrs Hm) as [E1 P1].
    destruct (IH _ P1) as [E2 P2]. destruct (IH _ P2) as [E3 P3].
    split; trivial. rewrite E3, E2, E1.
    rewrite !shn_compose; try lia; try (apply shn_range; try lia; auto);
      auto.
    f_equal. lia.
  - destruct (IH _ Hm) as [E2 P2]. destruct (IH _ P2) as [E3 P3].
    split; trivial. rewrite E3, E2.
    rewrite !shn_compose; try lia; auto. f_equal. lia.
  - apply shr_1_code; trivial.
Qed.

(** *** Binary digits *)

Lemma Zdigits2_log2 m : 0 < m -> Zdigits2 m = Z.log2 m + 1.
Proof.
  destruct m as [|p|p]; try lia. intros _. simpl.
  assert (S : forall q, digits2_pos q = Pos.size q)
    by (induction q; simpl; congruence).
  rewrite S. destruct p; simpl; lia.
Qed.

Lemma Zdigits2_bounds m : 0 < m -> 2 ^ (Zdigits2 m - 1) <= m < 2 ^ Zdigits2 m.
Proof.
  intros H. rewrite Zdigits2_log2 by trivial.
  replace (Z.log2 m + 1 - 1) with (Z.log2 m) by lia.
  apply Z.log2_spec; trivial.
Qed.

Lemma Zdigits2_nonneg m : 0 <= Zdigits2 m.
Proof. destruct m; simpl; lia. Qed.

Lemma Zdigits2_unique m d : 2 ^ (d - 1) <= m < 2 ^ d -> 0 < m -> Zdigits2 m = d.
Proof.
  intros H Hm. rewrite Zdigits2_log2 by trivial.
  assert (0 < d). { destruct (Z.ltb_spec 0 d); trivial. rewrite (Z.pow_neg_r 2 d) in H. lia. 
    assert (d = 0 \/ d < 0) as [->| ] by lia; simpl in *; lia. }
  assert (Z.log2 m = d - 1); [|lia].
  apply Z.log2_unique; try lia. replace (Z.succ (d - 1)) with d by lia. trivial.
Qed.

Lemma Zdigits2_mono m m' : 0 <= m <= m' -> Zdigits2 m <= Zdigits2 m'.
Proof.
  intros H. destruct (Z.eq_dec m 0) as [->|].
  - apply Zdigits2_nonneg.
  - rewrite !Zdigits2_log2 by lia.
    assert (Z.log2 m <= Z.log2 m') by (apply Z.log2_le_mono; lia). lia.
Qed.

Section Format.

Variables prec emax : Z.
Hypothesis Hprec : 1 < prec.
Hypothesis Hemax : prec < emax.

#[local] Abbreviation emin := (SpecFloat.emin prec emax).
#[local] Abbreviation fexp := (SpecFloat.fexp prec emax).
#[local] Abbreviation finish := (Rounding.finish prec emax).
#[local] Abbreviation rounded := (Rounding.rounded prec emax).
#[local] Abbreviation nexp := (Rounding.nexp prec).
#[local] Abbreviation nman := (Rounding.nman prec).
#[local] Abbreviation round_code := (Rounding.round_code prec emax).
#[local] Abbreviation Zval := (Rounding.Zval prec emax).
#[local] Abbreviation pround := (Rounding.pround prec emax).
#[local] Abbreviation sround := (Rounding.sround prec emax).

Lemma fexp_mono a b : a <= b -> fexp a <= fexp b.
Proof. unfold SpecFloat.fexp. lia. Qed.

Lemma fexp_ge_emin a : emin <= fexp a.
Proof. unfold SpecFloat.fexp. lia. Qed.

(** *** [binary_round_aux], on codes *)

Lemma shr_fexp_code m e l :
  0 <= m -> e <= fexp (Zdigits2 m + e) ->
  let g := fexp (Zdigits2 m + e) in
  code_of_rec (fst (shr_fexp prec emax m e l)) = shn (g - e) (4 * m + loc_code l) /\
  snd (shr_fexp prec emax m e l) = g /\
  0 <= shr_m (fst (shr_fexp prec emax m e l)).
Proof.
  intros Hm He g. unfold shr_fexp, shr. fold g.
  assert (R0 : 0 <= shr_m (shr_record_of_loc m l)) by (destruct l as [|[]]; simpl; lia).
  destruct (g - e) as [|p|p] eqn:E; try lia.
  - simpl fst. simpl snd. rewrite shn_0, code_of_rec_loc. repeat split; trivial. lia.
  - simpl fst. simpl snd.
    destruct (iter_pos_shr_code p _ R0) as [E1 P1].
    rewrite E1, code_of_rec_loc. repeat split; trivial. lia.
Qed.

Lemma binary_round_aux_code s m e l :
  0 <= m -> e <= fexp (Zdigits2 m + e) ->
  let g := fexp (Zdigits2 m + e) in
  binary_round_aux prec emax s m e l =
    finish s (rne (shn (g - e) (4 * m + loc_code l))) g.
Proof.
  intros Hm He g.
  destruct (shr_fexp_code m e l Hm He) as (E1 & E2 & P).
  unfold binary_round_aux, finish.
  destruct (shr_fexp prec emax m e l) as [mrs e'] eqn:S1.
  simpl fst in *. simpl snd in *. subst e'.
  rewrite code_of_rec_rne, E1. reflexivity.
Qed.

(** What the first shift and the rounding leave: at most [prec] digits, or
    exactly [2 ^ prec]; a full mantissa above the subnormal exponent. *)
Lemma rounded_rne m e c :
  0 <= m -> 0 <= c < 4 -> e <= fexp (Zdigits2 m + e) ->
  let g := fexp (Zdigits2 m + e) in
  rounded (rne (shn (g - e) (4 * m + c))) g.
Proof.
  intros Hm Hc He g.
  set (n := g - e). assert (Hn : 0 <= n) by (unfold n, g; lia).
  assert (P2 : 0 < 2 ^ n) by (apply Z.pow_pos_nonneg; lia).
  assert (Q : shn n (4 * m + c) / 4 = m / 2 ^ n).
  { rewrite shn_div4 by lia. f_equal. Z.div_mod_to_equations. lia. }
  pose proof (rne_bounds (shn n (4 * m + c))) as B. rewrite Q in B.
  assert (Gm : emin <= g) by apply fexp_ge_emin.
  assert (Pp : 0 < 2 ^ (prec - 1)) by (apply Z.pow_pos_nonneg; lia).
  assert (Pd : 2 ^ prec = 2 * 2 ^ (prec - 1)).
  { replace prec with (1 + (prec - 1)) at 1 by lia. rewrite Z.pow_add_r by lia. reflexivity. }
  destruct (Z.eq_dec m 0) as [->|Nz].
  - rewrite Z.div_0_l in B by lia.
    assert (g = emin). { unfold g in *. simpl Zdigits2 in *. unfold SpecFloat.fexp in *. lia. }
    unfold rounded. repeat split; try lia.
  - pose proof (Zdigits2_bounds m ltac:(lia)) as D.
    set (d := Zdigits2 m) in *.
    assert (Hd : d - n <= prec) by (unfold n, g, SpecFloat.fexp; lia).
    assert (U : m / 2 ^ n < 2 ^ prec).
    { apply Z.div_lt_upper_bound; trivial.
      apply Z.lt_le_trans with (2 ^ d); [lia|].
      rewrite <- Z.pow_add_r by lia. apply Z.pow_le_mono_r; lia. }
    assert (L0 : 0 <= m / 2 ^ n) by (apply Z.div_pos; lia).
    unfold rounded. repeat split; try lia.
    intros Gt.
    assert (Hd' : d - n = prec) by (unfold n, g, SpecFloat.fexp in *; lia).
    assert (2 ^ (prec - 1) <= m / 2 ^ n); [|lia].
    apply Z.div_le_lower_bound; trivial.
    rewrite <- Z.pow_add_r by lia.
    replace (n + (prec - 1)) with (d - 1) by lia. lia.
Qed.

Lemma pow_prec_split : 2 ^ prec = 2 * 2 ^ (prec - 1) /\ 0 < 2 ^ (prec - 1).
Proof.
  split; [|apply Z.pow_pos_nonneg; lia].
  replace prec with (1 + (prec - 1)) at 1 by lia.
  rewrite Z.pow_add_r by lia. reflexivity.
Qed.

(** [finish] keeps a mantissa below [2 ^ prec] and halves [2 ^ prec]. *)
Lemma finish_cases s M g :
  rounded M g ->
  finish s M g =
    if M =? 0 then S754_zero s
    else if nexp M g <=? emax - prec
         then S754_finite s (Z.to_pos (nman M)) (nexp M g)
         else S754_infinity s.
Proof.
  intros (HM & Hg & Hn). destruct pow_prec_split as [P2 P1].
  unfold finish, shr_fexp, shr, nexp, nman.
  destruct (Z.eqb_spec M 0) as [->|Nz].
  - simpl Zdigits2. assert (fexp (0 + g) - g <= 0) by (unfold SpecFloat.fexp; lia).
    destruct (fexp (0 + g) - g); try lia; reflexivity.
  - destruct (Z.ltb_spec M (2 ^ prec)) as [Lt|Ge].
    + assert (Zdigits2 M <= prec).
      { pose proof (Zdigits2_bounds M ltac:(lia)) as B.
        destruct (Z.le_gt_cases (Zdigits2 M) prec) as [|G]; trivial.
        assert (2 ^ prec <= 2 ^ (Zdigits2 M - 1)) by (apply Z.pow_le_mono_r; lia). lia. }
      assert (fexp (Zdigits2 M + g) - g <= 0) by (unfold SpecFloat.fexp; lia).
      destruct (fexp (Zdigits2 M + g) - g); try lia;
        destruct M; try lia; reflexivity.
    + assert (M = 2 ^ prec) by lia. subst M.
      assert (D : Zdigits2 (2 ^ prec) = prec + 1).
      { apply Zdigits2_unique; [|lia]. replace (prec + 1 - 1) with prec by lia.
        rewrite Z.pow_add_r by lia. lia. }
      rewrite D.
      assert (E : fexp (prec + 1 + g) - g = 1) by (unfold SpecFloat.fexp; lia).
      rewrite E. cbn [iter_pos].
      assert (R0 : 0 <= shr_m (shr_record_of_loc (2 ^ prec) loc_Exact)) by (simpl; lia).
      destruct (shr_1_code _ R0) as [C Pm].
      rewrite code_of_rec_loc in C. simpl loc_code in C.
      rewrite (code_of_rec_m (shr_1 _)), C, shn_div4 by lia.
      replace ((4 * 2 ^ prec + 0) / 4 / 2 ^ 1) with (2 ^ (prec - 1))
        by (rewrite P2; Z.div_mod_to_equations; lia).
      destruct (2 ^ (prec - 1)) eqn:E2; try lia. reflexivity.
Qed.

Lemma finish_opp M g : rounded M g -> finish true M g = SFopp (finish false M g).
Proof.
  intros R. rewrite !finish_cases by trivial.
  destruct (M =? 0); [reflexivity|]. destruct (_ <=? _); reflexivity.
Qed.

Lemma finish_nonnegative M g : rounded M g -> nonnegative (finish false M g).
Proof.
  intros R. rewrite finish_cases by trivial.
  destruct (M =? 0); [exact I|]. destruct (_ <=? _); exact I.
Qed.

Lemma SFleb_finite_pos m1 e1 m2 e2 :
  0 < m1 -> 0 < m2 -> e1 < e2 \/ (e1 = e2 /\ m1 <= m2) ->
  SFleb (S754_finite false (Z.to_pos m1) e1) (S754_finite false (Z.to_pos m2) e2)
  = true.
Proof.
  intros H1 H2 H. unfold SFleb, SFcompare.
  destruct (Z.compare_spec e1 e2); try reflexivity; try lia.
  change (PosDef.Pos.compare_cont Eq (Z.to_pos m1) (Z.to_pos m2))
    with (Pos.compare (Z.to_pos m1) (Z.to_pos m2)).
  rewrite <- Z2Pos.inj_compare by lia.
  destruct (Z.compare_spec m1 m2); try reflexivity; lia.
Qed.

(** Rounded pairs compare by exponent, then by mantissa. *)
Lemma finish_le M1 g1 M2 g2 :
  rounded M1 g1 -> rounded M2 g2 ->
  g1 < g2 \/ (g1 = g2 /\ M1 <= M2) ->
  SFleb (finish false M1 g1) (finish false M2 g2) = true.
Proof.
  intros R1 R2 H. rewrite !finish_cases by trivial.
  destruct R1 as (HM1 & Hg1 & Hn1), R2 as (HM2 & Hg2 & Hn2).
  destruct pow_prec_split as [P2 P1].
  destruct (Z.eqb_spec M1 0) as [Z1|Z1], (Z.eqb_spec M2 0) as [Z2|Z2];
    try reflexivity.
  - destruct (_ <=? _); reflexivity.
  - exfalso. lia.
  - assert (L : nexp M1 g1 < nexp M2 g2 \/
                (nexp M1 g1 = nexp M2 g2 /\ nman M1 <= nman M2)).
    { unfold nexp, nman.
      destruct (Z.ltb_spec M1 (2 ^ prec)), (Z.ltb_spec M2 (2 ^ prec)); lia. }
    assert (N1 : 0 < nman M1) by (unfold nman; destruct (Z.ltb_spec M1 (2 ^ prec)); lia).
    assert (N2 : 0 < nman M2) by (unfold nman; destruct (Z.ltb_spec M2 (2 ^ prec)); lia).
    destruct (Z.leb_spec (nexp M1 g1) (emax - prec)),
             (Z.leb_spec (nexp M2 g2) (emax - prec)); try reflexivity.
    + apply SFleb_finite_pos; trivial.
    + exfalso. lia.
Qed.

Lemma binary_round_aux_round_code s m e l :
  0 <= m -> e <= fexp (Zdigits2 m + e) ->
  binary_round_aux prec emax s m e l = round_code s (4 * m + loc_code l) e.
Proof.
  intros Hm He. rewrite binary_round_aux_code by trivial.
  unfold round_code.
  assert (E : (4 * m + loc_code l) / 4 = m).
  { destruct l as [|[]]; simpl loc_code; Z.div_mod_to_equations; lia. }
  now rewrite E.
Qed.

Lemma round_code_rounded k e :
  0 <= k -> e <= fexp (Zdigits2 (k / 4) + e) ->
  let g := fexp (Zdigits2 (k / 4) + e) in
  rounded (rne (shn (g - e) k)) g.
Proof.
  intros Hk He g.
  assert (E : k = 4 * (k / 4) + k mod 4) by (Z.div_mod_to_equations; lia).
  rewrite E at 1. apply rounded_rne; trivial.
  - Z.div_mod_to_equations; lia.
  - Z.div_mod_to_equations; lia.
Qed.

(** Rounding is monotone in the code, at an exponent below the format's. *)
Lemma round_code_mono k1 k2 e :
  0 <= k1 <= k2 -> e <= emin ->
  SFleb (round_code false k1 e) (round_code false k2 e) = true.
Proof.
  intros Hk He. unfold round_code.
  assert (Q : 0 <= k1 / 4 <= k2 / 4).
  { split; [apply Z.div_pos; lia | apply Z.div_le_mono; lia]. }
  pose proof (Zdigits2_mono _ _ Q) as D.
  set (g1 := fexp (Zdigits2 (k1 / 4) + e)).
  set (g2 := fexp (Zdigits2 (k2 / 4) + e)).
  assert (G : g1 <= g2) by (apply fexp_mono; lia).
  assert (F1 : e <= g1) by (pose proof (fexp_ge_emin (Zdigits2 (k1 / 4) + e)); unfold g1; lia).
  assert (F2 : e <= g2) by lia.
  apply finish_le.
  - apply round_code_rounded; [lia | exact F1].
  - apply round_code_rounded; [lia | exact F2].
  - destruct (Z.eq_dec g1 g2) as [E|NE]; [right | left; lia].
    split; trivial. rewrite E. apply rne_mono, shn_mono; lia.
Qed.

Lemma round_code_opp k e :
  0 <= k -> e <= fexp (Zdigits2 (k / 4) + e) ->
  round_code true k e = SFopp (round_code false k e).
Proof. intros. apply finish_opp. now apply round_code_rounded. Qed.

Lemma round_code_nonnegative k e :
  0 <= k -> e <= fexp (Zdigits2 (k / 4) + e) ->
  nonnegative (round_code false k e).
Proof. intros. apply finish_nonnegative. now apply round_code_rounded. Qed.

(** Rounding does not depend on the exponent the quotient is written at. *)
Lemma round_code_scale s N D e j :
  0 <= N -> 0 < D -> 0 <= j -> e <= fexp (Zdigits2 (N / D) + e) ->
  round_code s (code (N * 2 ^ j) D) (e - j) = round_code s (code N D) e.
Proof.
  intros HN HD Hj He. unfold round_code.
  assert (Pj : 0 < 2 ^ j) by (apply Z.pow_pos_nonneg; lia).
  rewrite !code_div4 by nia.
  set (m := N / D) in *. set (m' := N * 2 ^ j / D).
  assert (Hm : 0 <= m) by (apply Z.div_pos; lia).
  assert (Bm : D * m <= N < D * (m + 1)).
  { unfold m. pose proof (Z.mul_div_le N D HD).
    pose proof (Z.mul_succ_div_gt N D HD). lia. }
  assert (L : m * 2 ^ j <= m') by (apply Z.div_le_lower_bound; nia).
  assert (U : m' < (m + 1) * 2 ^ j) by (apply Z.div_lt_upper_bound; nia).
  assert (G : fexp (Zdigits2 m' + (e - j)) = fexp (Zdigits2 m + e)).
  { destruct (Z.eq_dec m 0) as [Z0|Nz].
    - rewrite Z0 in *. simpl Zdigits2 in *.
      assert (Zdigits2 m' <= j).
      { destruct (Z.eq_dec m' 0) as [->|]; [simpl; lia|].
        pose proof (Zdigits2_bounds m' ltac:(lia)).
        destruct (Z.le_gt_cases (Zdigits2 m') j); trivial.
        assert (2 ^ j <= 2 ^ (Zdigits2 m' - 1)) by (apply Z.pow_le_mono_r; lia). lia. }
      unfold SpecFloat.fexp in *. lia.
    - f_equal. pose proof (Zdigits2_bounds m ltac:(lia)) as B.
      assert (Zdigits2 m' = Zdigits2 m + j); [|lia].
      pose proof (Zdigits2_nonneg m).
      assert (0 < Zdigits2 m).
      { destruct (Z.eq_dec (Zdigits2 m) 0) as [E0|]; [|lia]. rewrite E0 in B. simpl in B. lia. }
      apply Zdigits2_unique; [|nia].
      replace (Zdigits2 m + j - 1) with (Zdigits2 m - 1 + j) by lia.
      rewrite !Z.pow_add_r by lia. nia. }
  rewrite G. set (g := fexp (Zdigits2 m + e)) in *.
  f_equal. f_equal.
  rewrite !shn_code by lia.
  replace (g - (e - j)) with (g - e + j) by lia.
  rewrite Z.pow_add_r by lia.
  replace (D * (2 ^ (g - e) * 2 ^ j)) with (D * 2 ^ (g - e) * 2 ^ j) by ring.
  apply code_scale; trivial.
  assert (0 < 2 ^ (g - e)) by (apply Z.pow_pos_nonneg; lia). nia.
Qed.

(** *** Values of finite numbers, in units of the least subnormal *)

Lemma valid_finite s m e :
  SpecFloat.valid_binary prec emax (S754_finite s m e) = true ->
  emin <= e <= emax - prec /\ fexp (Zdigits2 (Zpos m) + e) = e /\
  Zpos m < 2 ^ prec /\ (emin < e -> 2 ^ (prec - 1) <= Zpos m).
Proof.
  unfold SpecFloat.valid_binary, bounded, canonical_mantissa.
  rewrite andb_true_iff, Z.eqb_eq, Z.leb_le.
  change (Zpos (digits2_pos m)) with (Zdigits2 (Zpos m)).
  intros [C B].
  pose proof (Zdigits2_bounds (Zpos m) ltac:(lia)) as D.
  pose proof (fexp_ge_emin (Zdigits2 (Zpos m) + e)).
  assert (Hd : Zdigits2 (Zpos m) <= prec) by (unfold SpecFloat.fexp in C; lia).
  repeat split; try lia.
  - apply Z.lt_le_trans with (2 ^ Zdigits2 (Z.pos m)); [lia|].
    apply Z.pow_le_mono_r; lia.
  - intros G. assert (Zdigits2 (Zpos m) = prec) by (unfold SpecFloat.fexp in C; lia).
    replace (prec - 1) with (Zdigits2 (Zpos m) - 1) by lia. lia.
Qed.

Lemma valid_pos_lt m1 e1 m2 e2 :
  SpecFloat.valid_binary prec emax (S754_finite false m1 e1) = true ->
  SpecFloat.valid_binary prec emax (S754_finite false m2 e2) = true ->
  e1 < e2 -> Zpos m1 * 2 ^ (e1 - emin) < Zpos m2 * 2 ^ (e2 - emin).
Proof.
  intros V1 V2 L.
  destruct (valid_finite _ _ _ V1) as (B1 & _ & U1 & _).
  destruct (valid_finite _ _ _ V2) as (B2 & _ & _ & L2).
  specialize (L2 ltac:(lia)).
  destruct pow_prec_split as [P2 P1].
  replace (e2 - emin) with ((e1 - emin) + (e2 - e1 - 1) + 1) by lia.
  rewrite !Z.pow_add_r by lia.
  assert (0 < 2 ^ (e1 - emin)) by (apply Z.pow_pos_nonneg; lia).
  assert (0 < 2 ^ (e2 - e1 - 1)) by (apply Z.pow_pos_nonneg; lia).
  change (2 ^ 1) with 2.
  set (a := 2 ^ (e1 - emin)) in *. set (b := 2 ^ (e2 - e1 - 1)) in *.
  assert (S1 : Z.pos m1 * a < 2 ^ prec * a) by nia.
  assert (S2 : 2 ^ (prec - 1) * a <= Z.pos m2 * a) by nia.
  assert (S3 : Z.pos m2 * a * 1 <= Z.pos m2 * a * b) by (apply Z.mul_le_mono_nonneg_l; nia).
  nia.
Qed.

(** On valid finite numbers the order is the order of the values. *)
Lemma SFleb_Zval x1 x2 :
  SpecFloat.valid_binary prec emax x1 = true -> SpecFloat.valid_binary prec emax x2 = true ->
  finite_or_zero x1 -> finite_or_zero x2 ->
  SFleb x1 x2 = true -> Zval x1 <= Zval x2.
Proof.
  intros V1 V2 F1 F2.
  destruct x1 as [s1| | |s1 m1 e1], x2 as [s2| | |s2 m2 e2]; try contradiction;
    unfold SFleb, SFcompare, Zval.
  - lia.
  - destruct s2; [discriminate|]. intros _. cbn [cond_Zopp].
    assert (0 < 2 ^ (e2 - emin)); [|nia].
    destruct (valid_finite _ _ _ V2) as (B & _). apply Z.pow_pos_nonneg; lia.
  - destruct s1; [|discriminate]. intros _. cbn [cond_Zopp].
    assert (0 < 2 ^ (e1 - emin)); [|nia].
    destruct (valid_finite _ _ _ V1) as (B & _). apply Z.pow_pos_nonneg; lia.
  - destruct (valid_finite _ _ _ V1) as (B1 & _).
    destruct (valid_finite _ _ _ V2) as (B2 & _).
    assert (0 < 2 ^ (e1 - emin)) by (apply Z.pow_pos_nonneg; lia).
    assert (0 < 2 ^ (e2 - emin)) by (apply Z.pow_pos_nonneg; lia).
    change (PosDef.Pos.compare_cont Eq m1 m2) with (Pos.compare m1 m2).
    destruct s1, s2; cbn [cond_Zopp]; try discriminate; try (intros _; nia).
    + destruct (Z.compare_spec e1 e2) as [E|L|G].
      * subst e2. destruct (Pos.compare_spec m1 m2); cbn [CompOpp];
        try discriminate; intros _; subst; nia.
      * discriminate.
      * intros _. pose proof (valid_pos_lt m2 e2 m1 e1 V2 V1 ltac:(lia)). lia.
    + destruct (Z.compare_spec e1 e2) as [E|L|G].
      * subst e2. destruct (Pos.compare_spec m1 m2); cbn [CompOpp];
        try discriminate; intros _; subst; nia.
      * intros _. pose proof (valid_pos_lt m1 e1 m2 e2 V1 V2 ltac:(lia)). lia.
      * discriminate.
Qed.

(** *** Rounding a signed value *)

Section Family.

Variables A D e : Z.
Hypothesis HA : 0 < A.
Hypothesis HD : 0 < D.
Hypothesis He : e <= emin.

Lemma fits_low k : e <= fexp (Zdigits2 (k / 4) + e).
Proof. pose proof (fexp_ge_emin (Zdigits2 (k / 4) + e)). lia. Qed.

Lemma pround_nonnegative N : 0 <= N -> nonnegative (pround A D e N).
Proof.
  intros. apply round_code_nonnegative; [|apply fits_low].
  apply code_range; nia.
Qed.

Lemma pround_mono N1 N2 : 0 <= N1 <= N2 -> SFleb (pround A D e N1) (pround A D e N2) = true.
Proof.
  intros. apply round_code_mono; trivial. split.
  - apply code_range; nia.
  - apply code_mono; nia.
Qed.

Lemma nonnegative_cases x y :
  nonnegative x -> nonnegative y ->
  SFleb (SFopp x) y = true /\
  (forall s, SFleb (S754_zero s) y = true /\ SFleb (SFopp x) (S754_zero s) = true) /\
  (SFleb x y = true -> SFleb (SFopp y) (SFopp x) = true).
Proof.
  destruct x as [[]|[]| |[] m1 e1], y as [[]|[]| |[] m2 e2]; simpl; try contradiction;
    intros _ _; repeat split; try reflexivity; try (intros []; split; reflexivity);
    try discriminate.
  unfold SFleb. simpl. rewrite (Z.compare_antisym e1 e2).
  change (PosDef.Pos.compare_cont Eq m2 m1)
    with (Pos.compare_cont (CompOpp Eq) m2 m1).
  rewrite <- (Pos.compare_cont_antisym m1 m2 Eq).
  destruct (e1 ?= e2); simpl; trivial.
  destruct (Pos.compare_cont Eq m1 m2); simpl; trivial.
Qed.

Lemma sround_mono V1 V2 X1 X2 :
  V1 <= V2 -> sround A D e V1 X1 -> sround A D e V2 X2 -> SFleb X1 X2 = true.
Proof.
  intros L [(Z1 & s1 & ->)|[(P1 & ->)|(N1 & ->)]]
           [(Z2 & s2 & ->)|[(P2 & ->)|(N2 & ->)]]; try lia.
  - reflexivity.
  - apply (nonnegative_cases (pround A D e V2) (pround A D e V2)); apply pround_nonnegative; lia.
  - apply pround_mono; lia.
  - apply (nonnegative_cases (pround A D e (- V1)) (pround A D e (- V1))); apply pround_nonnegative; lia.
  - apply nonnegative_cases; apply pround_nonnegative; lia.
  - apply nonnegative_cases; try (apply pround_nonnegative; lia).
    apply pround_mono; lia.
Qed.

Lemma sround_not_nan V X : sround A D e V X -> X <> S754_nan.
Proof.
  intros [(_ & s & ->)|[(P & ->)|(N & ->)]]; try discriminate.
  - pose proof (pround_nonnegative V ltac:(lia)). destruct (pround A D e V); try discriminate; contradiction.
  - pose proof (pround_nonnegative (- V) ltac:(lia)).
    destruct (pround A D e (- V)); try discriminate; contradiction.
Qed.

(** An operation that rounds a monotone function of the value, and keeps
    infinities, is monotone. *)
Lemma mono_of_sround (op : spec_float -> spec_float) (f : Z -> Z) :
  (forall V1 V2, V1 <= V2 -> f V1 <= f V2) ->
  (forall x, SpecFloat.valid_binary prec emax x = true -> finite_or_zero x ->
             sround A D e (f (Zval x)) (op x)) ->
  (forall s, op (S754_infinity s) = S754_infinity s) ->
  forall x1 x2,
    SpecFloat.valid_binary prec emax x1 = true -> SpecFloat.valid_binary prec emax x2 = true ->
    SFleb x1 x2 = true -> SFleb (op x1) (op x2) = true.
Proof.
  intros Hf Hop Hinf x1 x2 V1 V2 L.
  assert (C : forall x, SpecFloat.valid_binary prec emax x = true -> x <> S754_nan ->
                        op x <> S754_nan).
  { intros x V N. destruct x as [s|s| |s m ex].
    - eapply sround_not_nan, Hop; simpl; trivial.
    - rewrite Hinf. discriminate.
    - congruence.
    - eapply sround_not_nan, Hop; simpl; trivial. }
  assert (Top : forall y, y <> S754_nan -> SFleb y (S754_infinity false) = true)
    by (intros [|[]| |]; try reflexivity; congruence).
  assert (Bot : forall y, y <> S754_nan -> SFleb (S754_infinity true) y = true)
    by (intros [|[]| |]; try reflexivity; congruence).
  assert (FZ : forall x, finite_or_zero x \/ (exists s, x = S754_infinity s) \/
                         x = S754_nan)
    by (intros []; simpl; eauto).
  destruct (FZ x1) as [F1|[[s1 ->]| ->]], (FZ x2) as [F2|[[s2 ->]| ->]].
  - apply sround_mono with (f (Zval x1)) (f (Zval x2)); auto.
    apply Hf, SFleb_Zval; trivial.
  - rewrite Hinf. destruct s2.
    + destruct x1 as [|[]| |[]]; try contradiction; discriminate.
    + apply Top, C; trivial. intros ->. discriminate.
  - destruct x1; try contradiction; discriminate.
  - rewrite Hinf. destruct s1.
    + apply Bot, C; trivial. intros ->. discriminate.
    + destruct x2 as [|[]| |[]]; try contradiction; discriminate.
  - rewrite !Hinf. exact L.
  - discriminate.
  - discriminate.
  - discriminate.
  - discriminate.
Qed.

End Family.

(** *** The operations as roundings of values *)

Lemma pow2_pos n : 0 <= n -> 0 < 2 ^ n.
Proof. intros. apply Z.pow_pos_nonneg; lia. Qed.

Lemma Zdigits2_ge m n : 0 <= n -> 2 ^ n <= m -> n + 1 <= Zdigits2 m.
Proof.
  intros Hn H. pose proof (pow2_pos n Hn).
  pose proof (Zdigits2_bounds m ltac:(lia)) as B.
  destruct (Z.le_gt_cases (n + 1) (Zdigits2 m)); trivial.
  assert (2 ^ Zdigits2 m <= 2 ^ n); [|lia].
  apply Z.pow_le_mono_r; lia.
Qed.

(** A valid number is the rounding of its own value. *)
Lemma round_valid s m ex :
  SpecFloat.valid_binary prec emax (S754_finite s m ex) = true ->
  sround 1 1 emin (Zval (S754_finite s m ex)) (S754_finite s m ex).
Proof.
  intros V. destruct (valid_finite _ _ _ V) as (B & C & U & L).
  pose proof (pow2_pos (ex - emin) ltac:(lia)) as P.
  assert (E : pround 1 1 emin (Zpos m * 2 ^ (ex - emin)) = S754_finite false m ex).
  { unfold pround. rewrite Z.mul_1_r.
    replace emin with (ex - (ex - emin)) at 2 by lia.
    rewrite round_code_scale; try lia; [|rewrite Z.div_1_r, C; lia].
    unfold round_code. rewrite code_exact.
    replace (4 * Z.pos m / 4) with (Zpos m) by (Z.div_mod_to_equations; lia).
    rewrite C, Z.sub_diag, shn_0.
    assert (R : rne (4 * Z.pos m) = Zpos m).
    { unfold rne. replace (4 * Z.pos m / 4) with (Zpos m) by (Z.div_mod_to_equations; lia).
      replace ((4 * Z.pos m) mod 4) with 0 by (Z.div_mod_to_equations; lia). reflexivity. }
    rewrite R, finish_cases by (unfold rounded; lia).
    unfold nexp, nman. simpl (Z.pos m =? 0).
    destruct (Z.ltb_spec (Zpos m) (2 ^ prec)); [|lia].
    destruct (Z.leb_spec ex (emax - prec)); [|lia]. reflexivity. }
  unfold sround, Zval. destruct s; cbn [cond_Zopp].
  - right. right. split; [nia|]. rewrite Z.opp_involutive, E. reflexivity.
  - right. left. split; [nia|]. now rewrite E.
Qed.

(** Multiplication by a positive normal number rounds the product. *)
Lemma SFmul_sround mc ec :
  2 ^ (prec - 1) <= Zpos mc ->
  let e0 := Z.min emin (emin + ec) in
  forall x, SpecFloat.valid_binary prec emax x = true -> finite_or_zero x ->
    sround (Zpos mc * 2 ^ (emin + ec - e0)) 1 e0 (Zval x)
           (SFmul prec emax x (S754_finite false mc ec)).
Proof.
  intros Hc e0 x V F. destruct x as [s| | |s m ex]; try contradiction.
  - left. split; trivial. simpl. eauto.
  - destruct (valid_finite _ _ _ V) as (B & C & U & L).
    cbn [SFmul]. rewrite xorb_false_r, Pos2Z.inj_mul.
    pose proof (pow2_pos (ex - emin) ltac:(lia)) as P.
    pose proof (pow2_pos (emin + ec - e0) ltac:(lia)) as P'.
    assert (Fit : ex + ec <= fexp (Zdigits2 (Zpos m * Zpos mc) + (ex + ec))).
    { assert (prec - 1 + 1 <= Zdigits2 (Zpos m * Zpos mc)) by (apply Zdigits2_ge; nia).
      unfold SpecFloat.fexp. lia. }
    rewrite binary_round_aux_round_code by (trivial; lia).
    simpl loc_code. rewrite Z.add_0_r, <- code_exact.
    assert (K : forall b, round_code b (code (Zpos m * Zpos mc) 1) (ex + ec) =
                          round_code b (code (Zpos m * 2 ^ (ex - emin) *
                                               (Zpos mc * 2 ^ (emin + ec - e0))) 1) e0).
    { intros b.
      rewrite <- (round_code_scale b (Zpos m * Zpos mc) 1 (ex + ec) (ex + ec - e0));
        try lia; [|now rewrite Z.div_1_r].
      f_equal; [|lia]. f_equal.
      replace (ex + ec - e0) with ((ex - emin) + (emin + ec - e0)) by lia.
      rewrite Z.pow_add_r by lia. ring. }
    rewrite K. unfold sround, Zval. destruct s; cbn [cond_Zopp].
    + right. right. split; [nia|]. rewrite Z.opp_involutive. unfold pround.
      apply round_code_opp; [apply code_range; nia | apply fits_low; lia].
    + right. left. split; [nia|]. unfold pround. reflexivity.
Qed.

(** The location of a remainder, as a code. *)
Lemma new_location_code N D :
  0 <= N -> 0 < D ->
  4 * (N / D) + loc_code (new_location D (N mod D)) = code N D.
Proof.
  intros HN HD. unfold code.
  pose proof (Z.div_mod N D ltac:(lia)) as E.
  pose proof (Z.mod_pos_bound N D HD) as B.
  set (q := N / D) in *. set (r := N mod D) in *.
  assert (Q : forall t, 0 <= t < D -> (2 * N = D * (2 * q) + t \/ 2 * N = D * (2 * q + 1) + t) ->
                        2 * (2 * N / D) + (if (2 * N) mod D =? 0 then 0 else 1) =
                        if 2 * r <? D then 4 * q + (if t =? 0 then 0 else 1)
                        else 4 * q + 2 + (if t =? 0 then 0 else 1)).
  { intros t Ht [H|H].
    - rewrite <- (Z.div_unique (2 * N) D (2 * q) t), <- (Z.mod_unique (2 * N) D (2 * q) t) by lia.
      destruct (Z.ltb_spec (2 * r) D); lia.
    - rewrite <- (Z.div_unique (2 * N) D (2 * q + 1) t), <- (Z.mod_unique (2 * N) D (2 * q + 1) t) by lia.
      destruct (Z.ltb_spec (2 * r) D); lia. }
  unfold new_location, new_location_even, new_location_odd.
  destruct (Z.ltb_spec (2 * r) D) as [Lt|Ge].
  - rewrite (Q (2 * r)) by lia. destruct (Z.ltb_spec (2 * r) D); [|lia].
    destruct (Z.even D) eqn:Ev; destruct (Z.eqb_spec r 0) as [R0|R0];
      destruct (Z.eqb_spec (2 * r) 0); try lia; unfold loc_code; try lia.
    + destruct (Z.compare_spec (2 * r) D); lia.
    + destruct (Z.compare_spec (2 * r + 1) D); lia.
  - rewrite (Q (2 * r - D)) by lia. destruct (Z.ltb_spec (2 * r) D); [lia|].
    destruct (Z.even D) eqn:Ev; destruct (Z.eqb_spec r 0) as [R0|R0];
      destruct (Z.eqb_spec (2 * r - D) 0) as [T0|T0]; try lia; unfold loc_code.
    + destruct (Z.compare_spec (2 * r) D); lia.
    + destruct (Z.compare_spec (2 * r) D); lia.
    + exfalso. assert (HD2 : D = 2 * r) by lia.
      rewrite HD2, Z.even_mul in Ev. discriminate.
    + destruct (Z.compare_spec (2 * r + 1) D); lia.
Qed.

(** Division by a positive finite number rounds the quotient. *)
Lemma SFdiv_sround mc ec :
  let e0 := Z.min emin (emin - ec) in
  forall x, SpecFloat.valid_binary prec emax x = true -> finite_or_zero x ->
    sround (2 ^ (emin - ec - e0)) (Zpos mc) e0 (Zval x)
           (SFdiv prec emax x (S754_finite false mc ec)).
Proof.
  intros e0 x V F. destruct x as [s| | |s m ex]; try contradiction.
  - left. split; trivial. simpl. eauto.
  - destruct (valid_finite _ _ _ V) as (B & C & U & L).
    cbn [SFdiv]. unfold SFdiv_core_binary. rewrite xorb_false_r.
    set (d1 := Zdigits2 (Zpos m)). set (d2 := Zdigits2 (Zpos mc)).
    set (e' := Z.min (fexp (d1 + ex - (d2 + ec))) (ex - ec)).
    set (sh := ex - ec - e').
    assert (Hs : 0 <= sh) by (unfold sh, e'; lia).
    pose proof (pow2_pos sh Hs) as Ps.
    assert (M' : match sh with
                 | 0 => Z.pos m
                 | Z.pos _ => Z.shiftl (Z.pos m) sh
                 | Z.neg _ => 0
                 end = Zpos m * 2 ^ sh).
    { clearbody sh. destruct sh as [|p|p]; try lia.
      rewrite Z.shiftl_mul_pow2 by lia. reflexivity. }
    rewrite M'. set (N := Zpos m * 2 ^ sh).
    assert (HN : 0 < N) by (unfold N; nia).
    assert (DE : Z.div_eucl N (Zpos mc) = (N / Zpos mc, N mod Zpos mc)).
    { unfold Z.div, Z.modulo. destruct (Z.div_eucl N (Z.pos mc)); reflexivity. }
    rewrite DE.
    assert (E0 : e0 <= e').
    { pose proof (fexp_ge_emin (d1 + ex - (d2 + ec))). unfold e0, e'. lia. }
    pose proof (Zdigits2_bounds (Zpos m) ltac:(lia)) as B1. fold d1 in B1.
    pose proof (Zdigits2_bounds (Zpos mc) ltac:(lia)) as B2. fold d2 in B2.
    assert (Fit : e' <= fexp (Zdigits2 (N / Zpos mc) + e')).
    { pose proof (fexp_ge_emin (Zdigits2 (N / Zpos mc) + e')).
      destruct (Z.le_gt_cases e' emin) as [|G]; [lia|].
      assert (Hsh : prec - d1 + d2 <= sh) by (unfold sh, e', SpecFloat.fexp in *; lia).
      assert (Hd1 : 0 < d1).
      { destruct (Z.le_gt_cases d1 0); [|lia].
        assert (2 ^ d1 <= 2 ^ 0) by (apply Z.pow_le_mono_r; lia). simpl in *. lia. }
      assert (Hd2 : 0 < d2).
      { destruct (Z.le_gt_cases d2 0); [|lia].
        assert (2 ^ d2 <= 2 ^ 0) by (apply Z.pow_le_mono_r; lia). simpl in *. lia. }
      assert (Q : 2 ^ (d1 - 1 + sh - d2) <= N / Zpos mc).
      { apply Z.div_le_lower_bound; [lia|].
        apply Z.le_trans with (2 ^ d2 * 2 ^ (d1 - 1 + sh - d2)).
        - apply Z.mul_le_mono_nonneg_r; [|lia]. apply Z.pow_nonneg; lia.
        - rewrite <- Z.pow_add_r by lia.
          replace (d2 + (d1 - 1 + sh - d2)) with ((d1 - 1) + sh) by lia.
          rewrite Z.pow_add_r by lia. unfold N. nia. }
      apply Zdigits2_ge in Q; [|lia].
      assert (fexp (d1 + ex - (d2 + ec)) <= fexp (Zdigits2 (N / Z.pos mc) + e')).
      { apply fexp_mono. unfold sh in *. lia. }
      unfold e' at 1. lia. }
    assert (Hq : 0 <= N / Zpos mc) by (apply Z.div_pos; lia).
    rewrite binary_round_aux_round_code by trivial.
    rewrite new_location_code by lia.
    pose proof (pow2_pos (ex - emin) ltac:(lia)) as P.
    pose proof (pow2_pos (emin - ec - e0) ltac:(lia)) as P'.
    assert (K : forall b, round_code b (code N (Zpos mc)) e' =
                          round_code b (code (Zpos m * 2 ^ (ex - emin) *
                                               2 ^ (emin - ec - e0)) (Zpos mc)) e0).
    { intros b.
      rewrite <- (round_code_scale b N (Zpos mc) e' (e' - e0)); try lia.
      f_equal; [|lia]. f_equal. unfold N.
      rewrite <- !Z.mul_assoc, <- !Z.pow_add_r by lia.
      do 2 f_equal. unfold sh. lia. }
    rewrite K. unfold sround, Zval. destruct s; cbn [cond_Zopp].
    + right. right. split; [nia|]. rewrite Z.opp_involutive. unfold pround.
      apply round_code_opp; [apply code_range; nia | apply fits_low; lia].
    + right. left. split; [nia|]. unfold pround. reflexivity.
Qed.

Lemma iter_xO m d : Zpos (Pos.iter xO m d) = Zpos m * 2 ^ Zpos d.
Proof.
  induction d as [|d IH] using Pos.peano_ind.
  - simpl. lia.
  - rewrite Pos.iter_succ, Pos2Z.inj_xO, IH, Pos2Z.inj_succ, Z.pow_succ_r by lia. ring.
Qed.

Lemma shl_align_fst m ex ex' :
  ex' <= ex -> Zpos (fst (shl_align m ex ex')) = Zpos m * 2 ^ (ex - ex').
Proof.
  intros H. unfold shl_align. destruct (ex' - ex) as [|d|d] eqn:E; try lia; simpl fst.
  - replace (ex - ex') with 0 by lia. lia.
  - rewrite iter_xO. do 2 f_equal. lia.
Qed.

Lemma binary_round_code s p e1 :
  emin <= e1 ->
  binary_round prec emax s p e1 =
    round_code s (code (Zpos p * 2 ^ (e1 - emin)) 1) emin.
Proof.
  intros He. unfold binary_round.
  change (Zpos (digits2_pos p)) with (Zdigits2 (Zpos p)).
  set (g0 := fexp (Zdigits2 (Zpos p) + e1)).
  assert (G0 : emin <= g0) by apply fexp_ge_emin.
  pose proof (Zdigits2_bounds (Zpos p) ltac:(lia)) as Bp.
  assert (Hmz : exists mz ez, shl_align p e1 g0 = (mz, ez) /\ emin <= ez /\
            Zpos mz * 2 ^ (ez - emin) = Zpos p * 2 ^ (e1 - emin) /\
            ez <= fexp (Zdigits2 (Zpos mz) + ez)).
  { unfold shl_align. destruct (g0 - e1) as [|d|d] eqn:E.
    - exists p, e1. repeat split; trivial. fold g0. lia.
    - exists p, e1. repeat split; trivial. fold g0. lia.
    - exists (Pos.iter xO p d), g0. repeat split; trivial.
      + rewrite iter_xO, <- Z.mul_assoc, <- Z.pow_add_r by lia. do 2 f_equal. lia.
      + rewrite iter_xO.
        assert (D : Zdigits2 (Zpos p * 2 ^ Zpos d) = Zdigits2 (Zpos p) + Zpos d).
        { pose proof (pow2_pos (Zpos d) ltac:(lia)).
          assert (0 < Zdigits2 (Zpos p)) by (simpl; lia).
          apply Zdigits2_unique; [|nia].
          replace (Zdigits2 (Z.pos p) + Z.pos d - 1) with (Zdigits2 (Z.pos p) - 1 + Zpos d) by lia.
          rewrite !Z.pow_add_r by lia. nia. }
        rewrite D. replace (Zdigits2 (Z.pos p) + Z.pos d + g0) with (Zdigits2 (Zpos p) + e1) by lia.
        fold g0. lia. }
  destruct Hmz as (mz & ez & -> & Hez & Hv & Fit).
  rewrite binary_round_aux_round_code by (trivial; lia).
  simpl loc_code. rewrite Z.add_0_r, <- code_exact, <- Hv.
  rewrite <- (round_code_scale s (Zpos mz) 1 ez (ez - emin)); try lia.
  - f_equal. lia.
  - now rewrite Z.div_1_r.
Qed.

Lemma binary_normalize_sround S e1 :
  emin <= e1 ->
  sround 1 1 emin (S * 2 ^ (e1 - emin)) (binary_normalize prec emax S e1 false).
Proof.
  intros He. pose proof (pow2_pos (e1 - emin) ltac:(lia)) as P.
  destruct S as [|p|p]; unfold binary_normalize.
  - left. split; eauto.
  - right. left. split; [nia|]. rewrite binary_round_code by trivial.
    unfold pround. now rewrite Z.mul_1_r.
  - right. right. split; [nia|]. rewrite binary_round_code by trivial.
    unfold pround. rewrite Z.mul_1_r.
    replace (- (Z.neg p * 2 ^ (e1 - emin))) with (Zpos p * 2 ^ (e1 - emin)) by lia.
    apply round_code_opp; [apply code_range; nia | apply fits_low; lia].
Qed.

(** Addition of finite numbers rounds the sum of the values. *)
Lemma SFadd_sround z :
  SpecFloat.valid_binary prec emax z = true -> finite_or_zero z ->
  forall x, SpecFloat.valid_binary prec emax x = true -> finite_or_zero x ->
    sround 1 1 emin (Zval x + Zval z) (SFadd prec emax x z).
Proof.
  intros Vz Fz x Vx Fx.
  destruct x as [sx| | |sx mx ex], z as [sz| | |sz mz ez]; try contradiction.
  - left. split; trivial. destruct sx, sz; simpl; eauto.
  - cbn [SFadd]. replace (Zval (S754_zero sx) + Zval (S754_finite sz mz ez))
      with (Zval (S754_finite sz mz ez)) by (cbn [Zval]; lia).
    now apply round_valid.
  - cbn [SFadd]. replace (Zval (S754_finite sx mx ex) + Zval (S754_zero sz))
      with (Zval (S754_finite sx mx ex)) by (cbn [Zval]; lia).
    now apply round_valid.
  - destruct (valid_finite _ _ _ Vx) as (Bx & _).
    destruct (valid_finite _ _ _ Vz) as (Bz & _).
    cbn [SFadd]. rewrite !shl_align_fst by lia.
    set (e1 := Z.min ex ez).
    match goal with |- sround _ _ _ ?V (binary_normalize _ _ ?S _ _) =>
      replace V with (S * 2 ^ (e1 - emin))
    end.
    + apply binary_normalize_sround. unfold e1. lia.
    + cbn [Zval]. rewrite Z.mul_add_distr_r.
      assert (T : forall b m e2, e1 <= e2 -> emin <= e1 ->
                cond_Zopp b (Zpos m * 2 ^ (e2 - e1)) * 2 ^ (e1 - emin) =
                cond_Zopp b (Zpos m * 2 ^ (e2 - emin))).
      { intros b m e2 H1 H2.
        replace (e2 - emin) with ((e2 - e1) + (e1 - emin)) by lia.
        rewrite Z.pow_add_r by lia. destruct b; cbn [cond_Zopp]; ring. }
      rewrite !T by (unfold e1; lia). reflexivity.
Qed.

Lemma SFadd_comm x y : SFadd prec emax x y = SFadd prec emax y x.
Proof.
  destruct x as [[]|[]| |sx mx ex], y as [[]|[]| |sy my ey]; try reflexivity.
  cbn [SFadd]. rewrite (Z.min_comm ey ex). f_equal. apply Z.add_comm.
Qed.

(** Every finite number lies between the two largest finite ones. *)
Lemma SFleb_max x :
  SpecFloat.valid_binary prec emax x = true -> finite_or_zero x ->
  let M := Z.to_pos (2 ^ prec - 1) in
  SFleb x (S754_finite false M (emax - prec)) = true /\
  SFleb (S754_finite true M (emax - prec)) x = true.
Proof.
  intros V F M. destruct pow_prec_split as [P2 P1].
  destruct x as [[]| | |s m ex]; try contradiction; try (split; reflexivity).
  destruct (valid_finite _ _ _ V) as (B & _ & U & _).
  assert (L : SFleb (S754_finite false m ex) (S754_finite false M (emax - prec))
              = true).
  { apply (SFleb_finite_pos (Zpos m) ex (2 ^ prec - 1) (emax - prec)); lia. }
  destruct s.
  - split; [reflexivity|].
    apply (nonnegative_cases (S754_finite false m ex)
             (S754_finite false M (emax - prec))); simpl; trivial.
  - split; [exact L | reflexivity].
Qed.

(** *** Monotonicity of the operations on valid numbers *)

Theorem SFmul_mono mc ec x1 x2 :
  2 ^ (prec - 1) <= Zpos mc ->
  SpecFloat.valid_binary prec emax x1 = true ->
  SpecFloat.valid_binary prec emax x2 = true ->
  SFleb x1 x2 = true ->
  SFleb (SFmul prec emax x1 (S754_finite false mc ec))
        (SFmul prec emax x2 (S754_finite false mc ec)) = true.
Proof.
  intros Hc.
  set (e0 := Z.min emin (emin + ec)).
  assert (P : 0 < 2 ^ (emin + ec - e0)) by (apply pow2_pos; unfold e0; lia).
  apply (mono_of_sround (Zpos mc * 2 ^ (emin + ec - e0)) 1 e0)
    with (op := fun x => SFmul prec emax x (S754_finite false mc ec))
         (f := fun V => V).
  - nia.
  - lia.
  - unfold e0. lia.
  - trivial.
  - intros x V F. now apply SFmul_sround.
  - intros []; reflexivity.
Qed.

Theorem SFdiv_mono mc ec x1 x2 :
  SpecFloat.valid_binary prec emax x1 = true ->
  SpecFloat.valid_binary prec emax x2 = true ->
  SFleb x1 x2 = true ->
  SFleb (SFdiv prec emax x1 (S754_finite false mc ec))
        (SFdiv prec emax x2 (S754_finite false mc ec)) = true.
Proof.
  set (e0 := Z.min emin (emin - ec)).
  assert (P : 0 < 2 ^ (emin - ec - e0)) by (apply pow2_pos; unfold e0; lia).
  apply (mono_of_sround (2 ^ (emin - ec - e0)) (Zpos mc) e0)
    with (op := fun x => SFdiv prec emax x (S754_finite false mc ec))
         (f := fun V => V).
  - trivial.
  - lia.
  - unfold e0. lia.
  - trivial.
  - intros x V F. now apply SFdiv_sround.
  - intros []; reflexivity.
Qed.

Theorem SFadd_mono z x1 x2 :
  SpecFloat.valid_binary prec emax z = true -> finite_or_zero z ->
  SpecFloat.valid_binary prec emax x1 = true ->
  SpecFloat.valid_binary prec emax x2 = true ->
  SFleb x1 x2 = true ->
  SFleb (SFadd prec emax x1 z) (SFadd prec emax x2 z) = true.
Proof.
  intros Vz Fz.
  apply (mono_of_sround 1 1 emin)
    with (op := fun x => SFadd prec emax x z) (f := fun V => V + Zval z).
  - lia.
  - lia.
  - lia.
  - intros. lia.
  - intros x V F. now apply SFadd_sround.
  - intros s. destruct z; try contradiction; reflexivity.
Qed.

End Format.


(** *** The order is transitive *)

Lemma cmp_pos_spec e1 m1 e2 m2 :
  CompareSpec (e1 = e2 /\ m1 = m2)
              (e1 < e2 \/ (e1 = e2 /\ (m1 < m2)%positive))
              (e2 < e1 \/ (e1 = e2 /\ (m2 < m1)%positive))
              (match e1 ?= e2 with
               | Eq => Pos.compare_cont Eq m1 m2
               | Lt => Lt
               | Gt => Gt
               end).
Proof.
  change (Pos.compare_cont Eq m1 m2) with (Pos.compare m1 m2).
  destruct (Z.compare_spec e1 e2); [|constructor; lia|constructor; lia].
  destruct (Pos.compare_spec m1 m2); constructor; lia.
Qed.

Lemma cmp_neg_spec e1 m1 e2 m2 :
  CompareSpec (e1 = e2 /\ m1 = m2)
              (e2 < e1 \/ (e1 = e2 /\ (m2 < m1)%positive))
              (e1 < e2 \/ (e1 = e2 /\ (m1 < m2)%positive))
              (match e1 ?= e2 with
               | Eq => CompOpp (Pos.compare_cont Eq m1 m2)
               | Lt => Gt
               | Gt => Lt
               end).
Proof.
  change (Pos.compare_cont Eq m1 m2) with (Pos.compare m1 m2).
  destruct (Z.compare_spec e1 e2); [|constructor; lia|constructor; lia].
  destruct (Pos.compare_spec m1 m2); constructor; lia.
Qed.

Lemma SFcompare_trans x y z :
  (SFleb x y = true -> SFleb y z = true -> SFleb x z = true) /\
  (SFltb x y = true -> SFleb y z = true -> SFltb x z = true) /\
  (SFleb x y = true -> SFltb y z = true -> SFltb x z = true).
Proof.
  unfold SFleb, SFltb.
  destruct x as [sx|sx| |sx mx ex], y as [sy|sy| |sy my ey],
           z as [sz|sz| |sz mz ez]; cbn [SFcompare];
    try (repeat split; intros; discriminate);
    try (destruct sx; repeat split; intros; (discriminate || reflexivity));
    try (destruct sy; repeat split; intros; (discriminate || reflexivity));
    try (destruct sz; repeat split; intros; (discriminate || reflexivity));
    try (destruct sx, sy; repeat split; intros; (discriminate || reflexivity));
    try (destruct sx, sz; repeat split; intros; (discriminate || reflexivity));
    try (destruct sy, sz; repeat split; intros; (discriminate || reflexivity)).
  all: destruct sx, sy, sz;
    try (repeat split; intros; (discriminate || reflexivity)).
  all: try (destruct (cmp_pos_spec ex mx ey my), (cmp_pos_spec ey my ez mz),
                     (cmp_pos_spec ex mx ez mz);
            repeat split; intros; try discriminate; try reflexivity; exfalso; lia).
  all: try (destruct (cmp_neg_spec ex mx ey my), (cmp_neg_spec ey my ez mz),
                     (cmp_neg_spec ex mx ez mz);
            repeat split; intros; try discriminate; try reflexivity; exfalso; lia).
Qed.

Local Close Scope Z_scope.

(** ** Numbers: order and monotone operations *)

Lemma prec_gt_1 : (1 < prec)%Z.
Proof. reflexivity. Qed.

Lemma prec_lt_emax : (prec < emax)%Z.
Proof. reflexivity. Qed.

Lemma leq_SF (x y : number) : leq x y <-> SFleb (Prim2SF x) (Prim2SF y) = true.
Proof. unfold leq. now rewrite leb_spec. Qed.

Lemma SFleb_not_nan x y : SFleb x y = true -> x <> S754_nan /\ y <> S754_nan.
Proof. destruct x, y; simpl; try discriminate; split; discriminate. Qed.

Lemma SFleb_refl x : x <> S754_nan -> SFleb x x = true.
Proof.
  intros N. unfold SFleb.
  destruct (SFcompare x x) as [c|] eqn:E.
  - pose proof (SFcompare_swap x x) as S. rewrite E in S.
    destruct c; try discriminate; reflexivity.
  - apply SFcompare_None in E. tauto.
Qed.

Lemma leq_refl (x : number) : is_nan x = false -> leq x x.
Proof. rewrite is_nan_SF, leq_SF. apply SFleb_refl. Qed.

Lemma leq_not_nan (x y : number) : leq x y -> is_nan x = false /\ is_nan y = false.
Proof. rewrite leq_SF, !is_nan_SF. apply SFleb_not_nan. Qed.

Lemma leq_trans (x y z : number) : leq x y -> leq y z -> leq x z.
Proof. rewrite !leq_SF. apply SFcompare_trans. Qed.

Lemma lt_leq_trans (x y z : number) :
  (x <? y)%float = true -> leq y z -> (x <? z)%float = true.
Proof. rewrite leq_SF, !ltb_spec. apply SFcompare_trans. Qed.

Lemma leq_lt_trans (x y z : number) :
  leq x y -> (y <? z)%float = true -> (x <? z)%float = true.
Proof. rewrite leq_SF, !ltb_spec. apply SFcompare_trans. Qed.

Lemma is_finite_SF (x : number) :
  is_finite x = true <-> finite_or_zero (Prim2SF x).
Proof.
  unfold is_finite, is_infinity.
  rewrite negb_true_iff, orb_false_iff, is_nan_SF, eqb_spec, abs_spec.
  change (Prim2SF infinity) with (S754_infinity false).
  destruct (Prim2SF x) as [s|s| |s m e]; simpl; unfold SFeqb; simpl;
    intuition congruence.
Qed.

Lemma mul_mono (c x1 x2 : number) :
  normal_pos c = true -> leq x1 x2 -> leq (x1 * c) (x2 * c).
Proof.
  unfold normal_pos. rewrite !leq_SF, !mul_spec.
  destruct (Prim2SF c) as [| | |[] mc ec]; try discriminate.
  rewrite Z.leb_le. intros Hc L.
  apply SFmul_mono; trivial; try apply Prim2SF_valid; reflexivity.
Qed.

Lemma div_mono (c x1 x2 : number) :
  pos_finite c = true -> leq x1 x2 -> leq (x1 / c) (x2 / c).
Proof.
  unfold pos_finite. rewrite !leq_SF, !div_spec.
  destruct (Prim2SF c) as [| | |[] mc ec]; try discriminate.
  intros _ L.
  apply SFdiv_mono; trivial; try apply Prim2SF_valid; reflexivity.
Qed.

Lemma add_comm (x y : number) : (x + y = y + x)%float.
Proof. apply Prim2SF_inj. rewrite !add_spec. apply SFadd_comm. Qed.

Lemma add_mono_l (z x1 x2 : number) :
  is_finite z = true -> leq x1 x2 -> leq (x1 + z) (x2 + z).
Proof.
  rewrite is_finite_SF, !leq_SF, !add_spec. intros Fz L.
  apply SFadd_mono; trivial; try apply Prim2SF_valid; reflexivity.
Qed.

(** Adding the same number, finite or not, to two finite numbers. *)
Lemma add_mono (z x1 x2 : number) :
  is_nan z = false -> is_finite x1 = true -> is_finite x2 = true ->
  leq x1 x2 -> leq (x1 + z) (x2 + z).
Proof.
  intros Nz F1 F2 L.
  destruct (is_finite z) eqn:Fz; [now apply add_mono_l|].
  revert Nz Fz F1 F2. clear L.
  rewrite is_nan_SF, <- not_true_iff_false, !is_finite_SF, leq_SF, !add_spec.
  destruct (Prim2SF z) as [s|s| |s m e]; simpl; try tauto.
  intros _ _.
  destruct (Prim2SF x1), (Prim2SF x2); simpl; try contradiction;
    intros _ _; destruct s; reflexivity.
Qed.

Lemma finite_bounds (x : number) :
  is_finite x = true -> leq (- max_value) x /\ leq x max_value.
Proof.
  rewrite is_finite_SF, !leq_SF. intros F.
  destruct (SFleb_max prec emax prec_gt_1 (Prim2SF x)
              (Prim2SF_valid x) F) as [U L].
  split; [exact L | exact U].
Qed.

Lemma bounded_finite (lo hi x : number) :
  is_finite lo = true -> is_finite hi = true -> leq lo x -> leq x hi ->
  is_finite x = true.
Proof.
  rewrite !is_finite_SF, !leq_SF. intros Flo Fhi L U.
  destruct (Prim2SF x) as [s|[]| |s m e]; simpl; trivial.
  - destruct (Prim2SF lo) as [|[]| |[]]; simpl in *; try contradiction; discriminate.
  - destruct (Prim2SF hi) as [|[]| |[]]; simpl in *; try contradiction; discriminate.
  - destruct (Prim2SF lo) as [|[]| |[]]; simpl in *; try contradiction; discriminate.
Qed.

(** ** Single-student prediction view *)

Import PredictionForm.
Import Spec(row2, row2_attending).
Local Open Scope float_scope.

(** *** The clamp *)

Lemma is_nan_eq (x : number) : is_nan x = true -> x = nan.
Proof.
  intros H. apply Prim2SF_inj. change (Prim2SF nan) with S754_nan.
  destruct (Prim2SF x) eqn:E; trivial;
    assert (N : is_nan x = false) by (apply is_nan_SF; rewrite E; discriminate);
    congruence.
Qed.

Lemma ltb_nan_l (x y : number) : is_nan x = true -> (x <? y)%float = false.
Proof.
  intros H. destruct (x <? y)%float eqn:E; trivial.
  apply ltb_not_nan in E. destruct E. congruence.
Qed.

Lemma ltb_nan_r (x y : number) : is_nan y = true -> (x <? y)%float = false.
Proof.
  intros H. destruct (x <? y)%float eqn:E; trivial.
  apply ltb_not_nan in E. destruct E. congruence.
Qed.

Lemma max_step_neg_infinity (x : number) :
  is_nan x = false -> max_step neg_infinity x = x.
Proof.
  intros N. unfold max_step.
  change (is_neg_zero neg_infinity) with false. rewrite andb_false_r.
  destruct (neg_infinity <? x)%float eqn:E; trivial.
  apply Prim2SF_inj. revert N E. rewrite is_nan_SF, ltb_spec.
  change (Prim2SF neg_infinity) with (S754_infinity true).
  destruct (Prim2SF x) as [|[]| |]; simpl; unfold SFltb; simpl;
    congruence.
Qed.

Lemma min_step_infinity (x : number) :
  is_nan x = false -> min_step infinity x = x.
Proof.
  intros N. unfold min_step.
  change (is_pos_zero infinity) with false. rewrite andb_false_r.
  destruct (x <? infinity)%float eqn:E; trivial.
  apply Prim2SF_inj. revert N E. rewrite is_nan_SF, ltb_spec.
  change (Prim2SF infinity) with (S754_infinity false).
  destruct (Prim2SF x) as [|[]| |]; simpl; unfold SFltb; simpl;
    congruence.
Qed.

Lemma Math_max_lower (x : number) :
  Math_max [x; 0.1] = if is_nan x then nan else if x <? 0.1 then 0.1 else x.
Proof.
  unfold Math_max. cbn [existsb fold_left].
  change (is_nan 0.1) with false. rewrite !orb_false_r.
  destruct (is_nan x) eqn:N; trivial.
  rewrite max_step_neg_infinity by trivial. unfold max_step.
  change (is_pos_zero 0.1) with false. rewrite andb_false_l. reflexivity.
Qed.

Lemma Math_min_upper (y : number) :
  Math_min [y; 0.95] = if is_nan y then nan else if 0.95 <? y then 0.95 else y.
Proof.
  unfold Math_min. cbn [existsb fold_left].
  change (is_nan 0.95) with false. rewrite !orb_false_r.
  destruct (is_nan y) eqn:N; trivial.
  rewrite min_step_infinity by trivial. unfold min_step.
  change (is_neg_zero 0.95) with false. rewrite andb_false_l. reflexivity.
Qed.

(** [Math.min(Math.max(x, 0.1), 0.95)] is the usual clamp, NaN included. *)
Lemma min_max_clamp (x : number) :
  Math_min [Math_max [x; 0.1]; 0.95] = Spec.clamp x 0.1 0.95.
Proof.
  rewrite Math_min_upper, Math_max_lower. unfold Spec.clamp.
  destruct (is_nan x) eqn:N.
  - change (is_nan nan) with true. cbv iota.
    rewrite (ltb_nan_l x), (ltb_nan_r _ x) by trivial.
    symmetry. now apply is_nan_eq.
  - destruct (x <? 0.1) eqn:L1.
    + reflexivity.
    + rewrite N. reflexivity.
Qed.

Lemma clamp_range (x : number) :
  let p := Spec.clamp x 0.1 0.95 in
  (p <? 0.1)%float = false /\ (0.95 <? p)%float = false /\
  (is_nan x = false -> leq 0.1 p /\ leq p 0.95).
Proof.
  unfold Spec.clamp, leq.
  destruct (x <? 0.1)%float eqn:L1; [repeat split; reflexivity|].
  destruct (0.95 <? x)%float eqn:L2; [repeat split; reflexivity|].
  repeat split; trivial; apply ltb_false_leb; trivial; reflexivity.
Qed.

Lemma clamp_mono (x1 x2 : number) :
  leq x1 x2 -> leq (Spec.clamp x1 0.1 0.95) (Spec.clamp x2 0.1 0.95).
Proof.
  intros L. destruct (leq_not_nan _ _ L) as [N1 N2]. unfold Spec.clamp.
  destruct (x1 <? 0.1)%float eqn:A1, (x2 <? 0.1)%float eqn:A2.
  - reflexivity.
  - destruct (0.95 <? x2)%float eqn:B2; [reflexivity|].
    apply ltb_false_leb; trivial; reflexivity.
  - pose proof (leq_lt_trans _ _ _ L A2). congruence.
  - destruct (0.95 <? x1)%float eqn:B1, (0.95 <? x2)%float eqn:B2; trivial.
    + reflexivity.
    + pose proof (lt_leq_trans _ _ _ B1 L). congruence.
    + apply ltb_false_leb; trivial; reflexivity.
Qed.

(** *** The score is monotone in each input *)

Lemma probability_clamp (s : number) :
  probability_of s = Spec.clamp (s / 100) 0.1 0.95.
Proof. apply min_max_clamp. Qed.

Lemma probability_mono (s1 s2 : number) :
  leq s1 s2 -> leq (probability_of s1) (probability_of s2).
Proof.
  intros L. rewrite !probability_clamp.
  apply clamp_mono, div_mono; trivial.
Qed.

Lemma leq_self (x y : number) : leq x y -> leq x x /\ leq y y.
Proof. intros L. destruct (leq_not_nan _ _ L). split; now apply leq_refl. Qed.

Lemma finite_not_nan (x : number) : is_finite x = true -> is_nan x = false.
Proof.
  unfold is_finite. rewrite negb_true_iff, orb_false_iff. tauto.
Qed.

Lemma finite_leq_self (x : number) : is_finite x = true -> leq x x.
Proof. intros F. apply leq_refl, finite_not_nan, F. Qed.

(** A finite number scaled by a weight whose product with the largest
    number is finite stays finite. *)
Lemma mul_finite (c x : number) :
  normal_pos c = true ->
  is_finite (- max_value * c) = true -> is_finite (max_value * c) = true ->
  is_finite x = true -> is_finite (x * c) = true.
Proof.
  intros Hc Lo Hi F. destruct (finite_bounds x F) as [L U].
  apply (bounded_finite (- max_value * c) (max_value * c)); trivial;
    now apply mul_mono.
Qed.

Lemma weighted_finite (a i : number) :
  is_finite a = true -> is_finite i = true ->
  is_finite (a * 0.3 + i * 0.5) = true.
Proof.
  intros Fa Fi.
  destruct (finite_bounds a Fa) as [La Ua], (finite_bounds i Fi) as [Li Ui].
  assert (Fa' : is_finite (a * 0.3) = true) by (apply mul_finite; trivial).
  assert (Fi' : is_finite (i * 0.5) = true) by (apply mul_finite; trivial).
  apply (bounded_finite (- max_value * 0.3 + - max_value * 0.5)
                        (max_value * 0.3 + max_value * 0.5)); trivial.
  - apply leq_trans with (- max_value * 0.3 + i * 0.5).
    + rewrite (add_comm (- max_value * 0.3)), (add_comm (- max_value * 0.3)).
      apply add_mono_l; [reflexivity|]. now apply mul_mono.
    + apply add_mono_l; trivial. now apply mul_mono.
  - apply leq_trans with (max_value * 0.3 + i * 0.5).
    + apply add_mono_l; trivial. now apply mul_mono.
    + rewrite (add_comm (max_value * 0.3)), (add_comm (max_value * 0.3)).
      apply add_mono_l; [reflexivity|]. now apply mul_mono.
Qed.

(** The engagement term in one of its four scores, the others fixed. *)
Lemma engagement_mono_1 (c1 c2 p s k : number) :
  is_finite p = true -> is_finite s = true -> is_finite k = true ->
  leq c1 c2 ->
  leq ((c1 + p + s + k) / 4 * 2) ((c2 + p + s + k) / 4 * 2).
Proof.
  intros Fp Fs Fk L.
  apply mul_mono; [reflexivity|]. apply div_mono; [reflexivity|].
  repeat (apply add_mono_l; trivial).
Qed.

Lemma engagement_mono_2 (c p1 p2 s k : number) :
  is_finite c = true -> is_finite s = true -> is_finite k = true ->
  leq p1 p2 ->
  leq ((c + p1 + s + k) / 4 * 2) ((c + p2 + s + k) / 4 * 2).
Proof.
  intros Fc Fs Fk L. rewrite (add_comm c p1), (add_comm c p2).
  now apply engagement_mono_1.
Qed.

Lemma engagement_mono_3 (c p s1 s2 k : number) :
  is_finite c = true -> is_finite p = true ->
  is_finite s1 = true -> is_finite s2 = true -> is_finite k = true ->
  leq s1 s2 ->
  leq ((c + p + s1 + k) / 4 * 2) ((c + p + s2 + k) / 4 * 2).
Proof.
  intros Fc Fp F1 F2 Fk L.
  apply mul_mono; [reflexivity|]. apply div_mono; [reflexivity|].
  apply add_mono_l; trivial.
  rewrite (add_comm (c + p) s1), (add_comm (c + p) s2).
  apply add_mono; trivial.
  apply (leq_not_nan (c + p) (c + p)), add_mono_l; trivial.
  now apply finite_leq_self.
Qed.

Lemma engagement_mono_4 (c p s k1 k2 : number) :
  is_finite c = true -> is_finite p = true -> is_finite s = true ->
  is_finite k1 = true -> is_finite k2 = true ->
  leq k1 k2 ->
  leq ((c + p + s + k1) / 4 * 2) ((c + p + s + k2) / 4 * 2).
Proof.
  intros Fc Fp Fs F1 F2 L.
  apply mul_mono; [reflexivity|]. apply div_mono; [reflexivity|].
  rewrite (add_comm (c + p + s) k1), (add_comm (c + p + s) k2).
  apply add_mono; trivial.
  apply (leq_not_nan (c + p + s) (c + p + s)).
  repeat (apply add_mono_l; trivial). now apply finite_leq_self.
Qed.

Lemma score_mono_attendance (a1 a2 i u : number) :
  is_finite a1 = true -> is_finite a2 = true -> is_finite i = true ->
  is_nan u = false -> leq a1 a2 ->
  leq (a1 * 0.3 + i * 0.5 + u) (a2 * 0.3 + i * 0.5 + u).
Proof.
  intros F1 F2 Fi Nu L.
  apply add_mono; trivial; try now apply weighted_finite.
  apply add_mono_l; [now apply mul_finite|]. now apply mul_mono.
Qed.

Lemma score_mono_internal (a i1 i2 u : number) :
  is_finite a = true -> is_finite i1 = true -> is_finite i2 = true ->
  is_nan u = false -> leq i1 i2 ->
  leq (a * 0.3 + i1 * 0.5 + u) (a * 0.3 + i2 * 0.5 + u).
Proof.
  intros Fa F1 F2 Nu L.
  apply add_mono; trivial; try now apply weighted_finite.
  rewrite (add_comm (a * 0.3)), (add_comm (a * 0.3)).
  apply add_mono_l; [now apply mul_finite|]. now apply mul_mono.
Qed.

Lemma score_mono_engagement (a i u1 u2 : number) :
  is_finite a = true -> is_finite i = true -> leq u1 u2 ->
  leq (a * 0.3 + i * 0.5 + u1) (a * 0.3 + i * 0.5 + u2).
Proof.
  intros Fa Fi L.
  rewrite (add_comm _ u1), (add_comm _ u2).
  apply add_mono_l; trivial. now apply weighted_finite.
Qed.

Lemma score_values (fd : FormData) :
  score fd =
    value Attendance fd * 0.3 + value InternalMarks fd * 0.5 +
    (value Cultural fd + value ClassParticipation fd + value Sports fd +
     value Curricular fd) / 4 * 2.
Proof. reflexivity. Qed.

(** *** The claims *)

Lemma activity_or_else (s : string) :
  parseFloat (or_else s "0") = Spec.activity s.
Proof.
  unfold or_else, Spec.activity. destruct (String.eqb s ""); reflexivity.
Qed.

Lemma submit_result (st : State) :
  submit st =
    ({| loading := false; result := Some (predict (formData st));
        formData := formData st |},
     [toast_success "Prediction completed successfully!"]).
Proof. reflexivity. Qed.

(** C1: the score a submission computes is
    0.30 * attendance + 0.50 * internalMarks + 2.0 * engagement, where
    engagement is the mean of the four activity scores and an absent (empty)
    score counts as 0; the stored probability is derived from that score. *)
Theorem C1_score_formula (st : State) :
  score (formData st) = Spec.score (formData st) /\
  engagement (formData st) = Spec.engagement (formData st) /\
  option_map probability (result (fst (submit st))) =
    Some (probability_of (Spec.score (formData st))).
Proof.
  assert (E : engagement (formData st) = Spec.engagement (formData st)).
  { unfold engagement, Spec.engagement, Spec.mean4.
    now rewrite !activity_or_else. }
  assert (S : score (formData st) = Spec.score (formData st)).
  { unfold score, Spec.score, attendance, internalMarks, Spec.numeric.
    rewrite E.
    rewrite (mul_comm (parseFloat (attendancePct (formData st)))),
            (mul_comm (parseFloat (internalMarksAvg (formData st)))),
            (mul_comm (Spec.engagement (formData st))).
    reflexivity. }
  repeat split; trivial.
  rewrite submit_result. simpl. now rewrite S.
Qed.

(** C2: the probability is clamp(score/100, 0.10, 0.95); no input gives a
    probability below 0.10 or above 0.95; and for attendance and internal
    marks in [0,100] and engagement in [0,10] it lies in [0.10, 0.95]. *)
Theorem C2_probability_clamped (fd : FormData) :
  let p := probability (predict fd) in
  p = Spec.clamp (score fd / 100) 0.1 0.95 /\
  (p <? 0.1) = false /\ (0.95 <? p) = false /\
  (leq 0 (attendance fd) -> leq (attendance fd) 100 ->
   leq 0 (internalMarks fd) -> leq (internalMarks fd) 100 ->
   leq 0 (engagement fd) -> leq (engagement fd) 10 ->
   leq 0.1 p /\ leq p 0.95).
Proof.
  cbn zeta. change (probability (predict fd)) with (probability_of (score fd)).
  rewrite probability_clamp.
  destruct (clamp_range (score fd / 100)) as (R1 & R2 & R3).
  split; [reflexivity|]. split; [exact R1|]. split; [exact R2|].
  intros A0 A1 I0 I1 E0 E1. apply R3.
  apply (leq_not_nan (score fd / 100) (score fd / 100)).
  apply div_mono; [reflexivity|]. unfold score.
  assert (Fi : is_finite (internalMarks fd * 0.5) = true).
  { apply (bounded_finite (0 * 0.5) (100 * 0.5)); try reflexivity;
      now apply mul_mono. }
  assert (Fe : is_finite (engagement fd * 2) = true).
  { apply (bounded_finite (0 * 2) (10 * 2)); try reflexivity;
      now apply mul_mono. }
  repeat (apply add_mono_l; trivial).
  apply mul_mono; [reflexivity|]. apply (leq_self _ _ A0).
Qed.

Lemma C2_probability_clamped_witness :
  leq 0.1 (probability (predict row2)) /\ leq (probability (predict row2)) 0.95.
Proof.
  destruct (C2_probability_clamped row2) as (_ & _ & _ & H).
  apply H; reflexivity.
Defined.

(** C3: prediction is Pass exactly when probability > 0.5; riskLevel is low
    exactly when probability > 0.7, medium exactly when
    0.4 < probability <= 0.7, and high otherwise; probability 0.70 is medium
    and probability 0.40 is high. *)
Theorem C3_prediction_and_risk (fd : FormData) :
  let r := predict fd in
  let p := probability r in
  (prediction r = Pass <-> (0.5 <? p)%float = true) /\
  (riskLevel r = low <-> (0.7 <? p)%float = true) /\
  (riskLevel r = medium <->
     (0.4 <? p)%float = true /\ (p <=? 0.7)%float = true) /\
  (riskLevel r = high <->
     (0.7 <? p)%float = false /\
     ~ ((0.4 <? p)%float = true /\ (p <=? 0.7)%float = true)) /\
  riskLevel_of 0.70%float = medium /\ riskLevel_of 0.40%float = high.
Proof.
  simpl. set (p := probability_of (score fd)).
  assert (B : riskLevel_of 0.70%float = medium /\ riskLevel_of 0.40%float = high)
    by (split; reflexivity).
  unfold prediction_of, riskLevel_of.
  assert (M : (0.4 <? p)%float = true ->
              ((0.7 <? p)%float = false <-> (p <=? 0.7)%float = true)).
  { intros H4. destruct (ltb_not_nan _ _ H4) as [N1 N2]. split.
    - apply ltb_false_leb; trivial.
    - intros L. destruct (0.7 <? p)%float eqn:G; trivial.
      apply ltb_leb_false in G. congruence. }
  destruct (0.5 <? p)%float, (0.7 <? p)%float, (0.4 <? p)%float;
    intuition congruence.
Qed.

(** C4, as the code has it: for attendance 62.0, internal marks 48 and
    activity scores 3, 4, 6, 2 (mean 3.75) the binary64 score is
    50.099999999999994 and the probability 0.5009999999999999, one unit in
    the last place below 50.1 and 0.501; prediction is Pass and riskLevel
    medium. *)
Theorem C4_row2_result :
  engagement row2 = 3.75%float /\
  score row2 = 50.099999999999994%float /\
  probability (predict row2) = 0.50099999999999989%float /\
  next_up (score row2) = 50.1%float /\
  next_up (probability (predict row2)) = 0.501%float /\
  prediction (predict row2) = Pass /\
  riskLevel (predict row2) = medium.
Proof. vm_compute. repeat split. Qed.

(** C4, as stated, fails: the computed score is not the number 50.1 and
    the probability is not the number 0.501. *)
Lemma C4_row2_not_exact :
  ~ (score row2 = 50.1%float /\ probability (predict row2) = 0.501%float /\
     prediction (predict row2) = Pass /\ riskLevel (predict row2) = medium).
Proof.
  intros [H _]. apply (f_equal Prim2SF) in H. vm_compute in H. discriminate.
Qed.

(** C5: topFactors always holds exactly three factors, in the order
    Internal Marks, Attendance, Engagement Index, with impacts the internal
    marks, the attendance and ten times the engagement. *)
Theorem C5_topFactors (st : State) :
  exists r, result (fst (submit st)) = Some r /\
    List.length (topFactors r) = 3%nat /\
    topFactors r =
      [ {| feature := "Internal Marks";
           impact := internalMarks (formData st) |};
        {| feature := "Attendance"; impact := attendance (formData st) |};
        {| feature := "Engagement Index";
           impact := (engagement (formData st) * 10)%float |} ].
Proof.
  exists (predict (formData st)). rewrite submit_result. repeat split.
Qed.

(** C9: for two well-formed inputs that agree on every numeric field but
    one, where the second has the greater or equal value of that field
    (attendance, internal marks or one engagement score), the second
    probability is greater than or equal to the first. *)
Theorem C9_probability_monotone (f : Field) (fd fd' : FormData) :
  wellFormed fd -> wellFormed fd' -> agreeExcept f fd fd' ->
  leq (value f fd) (value f fd') ->
  leq (probability (predict fd)) (probability (predict fd')).
Proof.
  intros W W' A L.
  change (leq (probability_of (score fd)) (probability_of (score fd'))).
  apply probability_mono. rewrite !score_values.
  assert (N : forall c p s k,
             is_finite c = true -> is_finite p = true ->
             is_finite s = true -> is_finite k = true ->
             is_nan ((c + p + s + k) / 4 * 2) = false).
  { intros c p s k Fc Fp Fs Fk.
    apply (leq_not_nan ((c + p + s + k) / 4 * 2) ((c + p + s + k) / 4 * 2)).
    apply engagement_mono_1; trivial. now apply finite_leq_self. }
  destruct f.
  - rewrite <- (A InternalMarks), <- (A Cultural), <- (A ClassParticipation),
      <- (A Sports), <- (A Curricular) by discriminate.
    apply score_mono_attendance; trivial; try apply W; try apply W'.
    apply N; apply W.
  - rewrite <- (A Attendance), <- (A Cultural), <- (A ClassParticipation),
      <- (A Sports), <- (A Curricular) by discriminate.
    apply score_mono_internal; trivial; try apply W; try apply W'.
    apply N; apply W.
  - rewrite <- (A Attendance), <- (A InternalMarks), <- (A ClassParticipation),
      <- (A Sports), <- (A Curricular) by discriminate.
    apply score_mono_engagement; try apply W.
    apply engagement_mono_1; trivial; apply W.
  - rewrite <- (A Attendance), <- (A InternalMarks), <- (A Cultural),
      <- (A Sports), <- (A Curricular) by discriminate.
    apply score_mono_engagement; try apply W.
    apply engagement_mono_2; trivial; apply W.
  - rewrite <- (A Attendance), <- (A InternalMarks), <- (A Cultural),
      <- (A ClassParticipation), <- (A Curricular) by discriminate.
    apply score_mono_engagement; try apply W.
    apply engagement_mono_3; trivial; try apply W; apply W'.
  - rewrite <- (A Attendance), <- (A InternalMarks), <- (A Cultural),
      <- (A ClassParticipation), <- (A Sports) by discriminate.
    apply score_mono_engagement; try apply W.
    apply engagement_mono_4; trivial; try apply W; apply W'.
Qed.

Lemma C9_probability_monotone_witness :
  leq (value Attendance row2) (value Attendance row2_attending) /\
  leq (probability (predict row2)) (probability (predict row2_attending)).
Proof.
  split; [reflexivity|].
  apply (C9_probability_monotone Attendance row2 row2_attending).
  - intros []; reflexivity.
  - intros []; reflexivity.
  - intros [] N; try reflexivity. now elim N.
  - reflexivity.
Defined.

(** *** Further properties *)

(** *** The form and its submission *)

Ltac string_cases :=
  repeat match goal with
         | |- context [String.eqb ?a ?b] =>
             destruct (String.eqb_spec a b); subst; cbn [String.eqb Ascii.eqb Bool.eqb]
         end.

(** X1: after a change of the field named [n], that field reads the new
    value, every other name reads what it read before, and the loading flag
    and the result are untouched. *)
Theorem X1_input_change_lookup (n v : string) (st : State) :
  (field n (formData st) <> None ->
   field n (formData (handleInputChange n v st)) = Some v) /\
  (forall m, m <> n ->
     field m (formData (handleInputChange n v st)) = field m (formData st)) /\
  loading (handleInputChange n v st) = loading st /\
  result (handleInputChange n v st) = result st.
Proof.
  repeat split.
  - unfold field, handleInputChange. cbn [formData studentId semester
      attendancePct internalMarksAvg culturalActivityScore
      classParticipationScore sportsActivityScore curricularActivityScore].
    string_cases; congruence.
  - intros m Hm. unfold field, handleInputChange. cbn [formData studentId semester
      attendancePct internalMarksAvg culturalActivityScore
      classParticipationScore sportsActivityScore curricularActivityScore].
    string_cases; congruence.
Qed.

Lemma X1_input_change_lookup_witness :
  field "semester" (formData (handleInputChange "semester" "5" initial))
  = Some "5"%string.
Proof.
  apply (X1_input_change_lookup "semester" "5" initial). discriminate.
Defined.

Lemma formData_eq (a b : FormData) :
  studentId a = studentId b -> semester a = semester b ->
  attendancePct a = attendancePct b -> internalMarksAvg a = internalMarksAvg b ->
  culturalActivityScore a = culturalActivityScore b ->
  classParticipationScore a = classParticipationScore b ->
  sportsActivityScore a = sportsActivityScore b ->
  curricularActivityScore a = curricularActivityScore b -> a = b.
Proof. destruct a, b; simpl; intros; subst; reflexivity. Qed.

(** X2: of two changes of the same field the later one stands, and changes
    of different fields commute. *)
Theorem X2_input_changes_compose (n m v w : string) (st : State) :
  handleInputChange n v (handleInputChange n w st) = handleInputChange n v st /\
  (n <> m ->
   handleInputChange n v (handleInputChange m w st) =
   handleInputChange m w (handleInputChange n v st)).
Proof.
  split; [|intros Hnm]; unfold handleInputChange;
    cbn [formData loading result studentId semester
      attendancePct internalMarksAvg culturalActivityScore
      classParticipationScore sportsActivityScore curricularActivityScore];
    f_equal; apply formData_eq;
    cbn [studentId semester
      attendancePct internalMarksAvg culturalActivityScore
      classParticipationScore sportsActivityScore curricularActivityScore];
    string_cases; congruence.
Qed.

Lemma X2_input_changes_compose_witness :
  handleInputChange "semester" "5" (handleInputChange "studentId" "a" initial) =
  handleInputChange "studentId" "a" (handleInputChange "semester" "5" initial).
Proof.
  apply (X2_input_changes_compose "semester" "studentId" "5" "a" initial).
  discriminate.
Defined.

Lemma edit_frame (edits : list (string * string)) : forall st,
  loading (edit edits st) = loading st /\ result (edit edits st) = result st.
Proof.
  induction edits as [|[n v] edits IH]; intros st; [split; reflexivity|].
  unfold edit in *. cbn [fold_left fst snd].
  destruct (IH (handleInputChange n v st)) as [L R]. rewrite L, R.
  split; reflexivity.
Qed.

(** X3: a submission sets the loading flag and one 1500 ms timer, and
    leaves the previous result in place; the button is disabled and reads
    Predicting... until the timer fires.  Whatever is typed before that,
    the result then stored is the prediction for the form data as it was on
    submission, while the form keeps what was typed. *)
Theorem X3_submission_uses_submitted_data
  (st : State) (edits : list (string * string)) :
  let st1 := fst (handleSubmit st) in
  let st2 := edit edits st1 in
  exists t,
    snd (handleSubmit st) = {| toasts := []; timers := [t] |} /\
    delay t = 1500%Z /\
    loading st2 = true /\ result st2 = result st /\
    submitDisabled st2 = true /\ submitLabel st2 = "Predicting..."%string /\
    result (fst (onTimeout t st2)) = Some (predict (formData st)) /\
    formData (fst (onTimeout t st2)) = formData st2 /\
    loading (fst (onTimeout t st2)) = false /\
    submitLabel (fst (onTimeout t st2)) = "Predict Outcome"%string /\
    toasts (snd (onTimeout t st2)) =
      [toast_success "Prediction completed successfully!"].
Proof.
  cbn zeta. exists {| delay := 1500; captured := formData st |}.
  destruct (edit_frame edits (fst (handleSubmit st))) as [L R].
  unfold submitDisabled, submitLabel. rewrite L, R. repeat split.
Qed.

(** *** Inputs that are not numbers *)

Lemma is_nan_SF_true (x : number) : is_nan x = true <-> Prim2SF x = S754_nan.
Proof.
  pose proof (is_nan_SF x) as H. destruct (is_nan x).
  - split; trivial. intros _. destruct (Prim2SF x) eqn:E; trivial;
      exfalso; assert (true = false) by (apply H; discriminate); discriminate.
  - split; [discriminate|]. intros E. exfalso. now apply H.
Qed.

Lemma nan_mul_l (x y : number) : is_nan x = true -> is_nan (x * y) = true.
Proof. rewrite !is_nan_SF_true, mul_spec. now intros ->. Qed.

Lemma nan_div_l (x y : number) : is_nan x = true -> is_nan (x / y) = true.
Proof. rewrite !is_nan_SF_true, div_spec. now intros ->. Qed.

Lemma nan_add_l (x y : number) : is_nan x = true -> is_nan (x + y) = true.
Proof. rewrite !is_nan_SF_true, add_spec. now intros ->. Qed.

Lemma nan_add_r (x y : number) : is_nan y = true -> is_nan (x + y) = true.
Proof. rewrite add_comm. apply nan_add_l. Qed.

Lemma score_nan (fd : FormData) (f : Field) :
  is_nan (value f fd) = true -> is_nan (score fd) = true.
Proof.
  intros N. rewrite score_values. destruct f.
  - now apply nan_add_l, nan_add_l, nan_mul_l.
  - now apply nan_add_l, nan_add_r, nan_mul_l.
  - now apply nan_add_r, nan_mul_l, nan_div_l, nan_add_l, nan_add_l, nan_add_l.
  - now apply nan_add_r, nan_mul_l, nan_div_l, nan_add_l, nan_add_l, nan_add_r.
  - now apply nan_add_r, nan_mul_l, nan_div_l, nan_add_l, nan_add_r.
  - now apply nan_add_r, nan_mul_l, nan_div_l, nan_add_r.
Qed.

Lemma probability_nan (s : number) :
  is_nan s = true -> probability_of s = nan.
Proof.
  intros N. rewrite probability_clamp. unfold Spec.clamp.
  assert (N' : is_nan (s / 100) = true) by now apply nan_div_l.
  rewrite (ltb_nan_l _ _ N'), (ltb_nan_r _ _ N'). now apply is_nan_eq.
Qed.

(** X4: when one of the six numeric fields does not read as a number (a
    required field left empty, text that is no number), the probability is
    NaN, the prediction is Fail, the risk level is high and the confidence
    line reads "NaN%". *)
Theorem X4_not_a_number (fd : FormData) (f : Field) :
  is_nan (value f fd) = true ->
  probability (predict fd) = nan /\
  prediction (predict fd) = Fail /\
  riskLevel (predict fd) = high /\
  confidence (predict fd) = Some "NaN%"%string.
Proof.
  intros N. apply (score_nan fd f) in N. apply probability_nan in N.
  unfold confidence. cbn [predict probability prediction riskLevel].
  rewrite N. repeat split.
Qed.

Lemma X4_not_a_number_witness :
  probability (predict emptyForm) = nan /\
  prediction (predict emptyForm) = Fail /\
  riskLevel (predict emptyForm) = high /\
  confidence (predict emptyForm) = Some "NaN%"%string.
Proof. apply (X4_not_a_number emptyForm Attendance). reflexivity. Defined.

(** *** Prediction and risk level agree *)




(** *** Inputs in their declared ranges *)

Lemma add_mono2 (x1 x2 z1 z2 : number) :
  is_finite z1 = true -> is_finite x2 = true ->
  leq x1 x2 -> leq z1 z2 -> leq (x1 + z1) (x2 + z2).
Proof.
  intros Fz Fx Lx Lz. apply leq_trans with (x2 + z1).
  - now apply add_mono_l.
  - rewrite (add_comm x2 z1), (add_comm x2 z2). now apply add_mono_l.
Qed.

Lemma within_finite (lo hi x : number) :
  is_finite lo = true -> is_finite hi = true -> within lo hi x ->
  is_finite x = true.
Proof. intros Fl Fh [L U]. now apply (bounded_finite lo hi). Qed.

Lemma within_add (l1 h1 l2 h2 x y : number) :
  is_finite l1 = true -> is_finite h1 = true ->
  is_finite l2 = true -> is_finite h2 = true ->
  within l1 h1 x -> within l2 h2 y -> within (l1 + l2) (h1 + h2) (x + y).
Proof.
  intros F1 F2 F3 F4 Wx Wy.
  pose proof (within_finite _ _ _ F1 F2 Wx).
  pose proof (within_finite _ _ _ F3 F4 Wy).
  destruct Wx, Wy. split; apply add_mono2; trivial.
Qed.

Lemma within_mul (c lo hi x : number) :
  normal_pos c = true -> within lo hi x -> within (lo * c) (hi * c) (x * c).
Proof. intros Hc [L U]. split; now apply mul_mono. Qed.

Lemma within_div (c lo hi x : number) :
  pos_finite c = true -> within lo hi x -> within (lo / c) (hi / c) (x / c).
Proof. intros Hc [L U]. split; now apply div_mono. Qed.

Lemma engagement_values (fd : FormData) :
  engagement fd =
    (value Cultural fd + value ClassParticipation fd + value Sports fd +
     value Curricular fd) / 4.
Proof. reflexivity. Qed.

Lemma engagement_within (c p s k : number) :
  within 0 10 c -> within 0 10 p -> within 0 10 s -> within 0 10 k ->
  within 0 10 ((c + p + s + k) / 4).
Proof.
  intros Wc Wp Ws Wk.
  change (within ((0 + 0 + 0 + 0) / 4) ((10 + 10 + 10 + 10) / 4)
                 ((c + p + s + k) / 4)).
  apply within_div; [reflexivity|].
  repeat (apply within_add; try reflexivity; trivial).
Qed.

(** X6: when each of the four activity scores reads as a number from 0 to
    10, so does the engagement computed from them. *)
Theorem X6_engagement_range (fd : FormData) :
  (forall f, isActivity f = true -> within 0 10 (value f fd)) ->
  within 0 10 (engagement fd).
Proof.
  intros H. rewrite engagement_values.
  apply engagement_within; apply H; reflexivity.
Qed.

Lemma X6_engagement_range_witness : within 0 10 (engagement Spec.row2).
Proof.
  apply (X6_engagement_range Spec.row2).
  intros [] E; try discriminate E; split; reflexivity.
Defined.

Lemma score_within (fd : FormData) :
  inRange fd -> within 0 100 (score fd) /\ within 0 10 (engagement fd).
Proof.
  intros H.
  assert (E : within 0 10 (engagement fd)).
  { rewrite engagement_values.
    apply engagement_within;
      [apply (H Cultural) | apply (H ClassParticipation)
      |apply (H Sports) | apply (H Curricular)]. }
  split; trivial. rewrite score_values, <- engagement_values.
  change (within (0 * 0.3 + 0 * 0.5 + 0 * 2) (100 * 0.3 + 100 * 0.5 + 10 * 2)
            (value Attendance fd * 0.3 + value InternalMarks fd * 0.5 +
             engagement fd * 2)).
  repeat (apply within_add; try reflexivity);
    apply within_mul; try reflexivity; trivial;
    [apply (H Attendance) | apply (H InternalMarks)].
Qed.

Lemma impacts_within (fd : FormData) :
  inRange fd ->
  Forall (fun fa => within 0 100 (impact fa)) (topFactors (predict fd)).
Proof.
  intros H. destruct (score_within fd H) as [S E].
  cbn [predict topFactors]. repeat constructor; cbn [impact].
  - apply (H InternalMarks).
  - apply (H InternalMarks).
  - apply (H Attendance).
  - apply (H Attendance).
  - apply (within_mul 10 0 10 (engagement fd) eq_refl E).
  - apply (within_mul 10 0 10 (engagement fd) eq_refl E).
Qed.

(** X7: for inputs in their declared ranges the score lies between 0 and
    100, and each of the three factor impacts lies between 0 and 100, the
    scale of the bar that shows it. *)
Theorem X7_score_and_impacts_in_range (fd : FormData) :
  inRange fd ->
  within 0 100 (score fd) /\
  Forall (fun fa => within 0 100 (impact fa)) (topFactors (predict fd)).
Proof.
  intros H. split; [apply (score_within fd H) | now apply impacts_within].
Qed.

Lemma X7_score_and_impacts_in_range_witness :
  within 0 100 (score Spec.row2) /\
  Forall (fun fa => within 0 100 (impact fa)) (topFactors (predict Spec.row2)).
Proof.
  apply (X7_score_and_impacts_in_range Spec.row2).
  intros []; split; reflexivity.
Defined.

(** *** Monotonicity of the score and of the classification *)

Lemma score_monotone (f : Field) (fd fd' : FormData) :
  wellFormed fd -> wellFormed fd' -> agreeExcept f fd fd' ->
  leq (value f fd) (value f fd') -> leq (score fd) (score fd').
Proof.
  intros W W' A L. rewrite !score_values.
  assert (N : forall c p s k,
             is_finite c = true -> is_finite p = true ->
             is_finite s = true -> is_finite k = true ->
             is_nan ((c + p + s + k) / 4 * 2) = false).
  { intros c p s k Fc Fp Fs Fk.
    apply (leq_not_nan ((c + p + s + k) / 4 * 2) ((c + p + s + k) / 4 * 2)).
    apply engagement_mono_1; trivial. now apply finite_leq_self. }
  destruct f.
  - rewrite <- (A InternalMarks), <- (A Cultural), <- (A ClassParticipation),
      <- (A Sports), <- (A Curricular) by discriminate.
    apply score_mono_attendance; trivial; try apply W; try apply W'.
    apply N; apply W.
  - rewrite <- (A Attendance), <- (A Cultural), <- (A ClassParticipation),
      <- (A Sports), <- (A Curricular) by discriminate.
    apply score_mono_internal; trivial; try apply W; try apply W'.
    apply N; apply W.
  - rewrite <- (A Attendance), <- (A InternalMarks), <- (A ClassParticipation),
      <- (A Sports), <- (A Curricular) by discriminate.
    apply score_mono_engagement; try apply W.
    apply engagement_mono_1; trivial; apply W.
  - rewrite <- (A Attendance), <- (A InternalMarks), <- (A Cultural),
      <- (A Sports), <- (A Curricular) by discriminate.
    apply score_mono_engagement; try apply W.
    apply engagement_mono_2; trivial; apply W.
  - rewrite <- (A Attendance), <- (A InternalMarks), <- (A Cultural),
      <- (A ClassParticipation), <- (A Curricular) by discriminate.
    apply score_mono_engagement; try apply W.
    apply engagement_mono_3; trivial; try apply W; apply W'.
  - rewrite <- (A Attendance), <- (A InternalMarks), <- (A Cultural),
      <- (A ClassParticipation), <- (A Sports) by discriminate.
    apply score_mono_engagement; try apply W.
    apply engagement_mono_4; trivial; try apply W; apply W'.
Qed.

Lemma classification_mono (p p' : number) :
  leq p p' ->
  (prediction_of p = Pass -> prediction_of p' = Pass) /\
  (riskRank (riskLevel_of p) <= riskRank (riskLevel_of p'))%nat.
Proof.
  intros L.
  assert (T : forall c, (c <? p) = true -> (c <? p') = true)
    by (intros c H; now apply (lt_leq_trans c p p')).
  unfold prediction_of, riskLevel_of. split.
  - destruct (0.5 <? p) eqn:H; [|discriminate]. now rewrite (T _ H).
  - destruct (0.7 <? p) eqn:H7.
    + rewrite (T _ H7). auto.
    + destruct (0.4 <? p) eqn:H4.
      * rewrite (T _ H4). destruct (0.7 <? p'); simpl; auto.
      * destruct (0.7 <? p'); [|destruct (0.4 <? p')]; simpl; auto.
Qed.

(** X8: the raw score itself, before the clamp, is monotone: of two
    well-formed inputs that agree on every numeric field but one, the one
    with the greater or equal value of that field has the greater or equal
    score. *)
Theorem X8_score_monotone (f : Field) (fd fd' : FormData) :
  wellFormed fd -> wellFormed fd' -> agreeExcept f fd fd' ->
  leq (value f fd) (value f fd') -> leq (score fd) (score fd').
Proof. apply score_monotone. Qed.

(** X9: raising one numeric field of a well-formed input never turns a Pass
    into a Fail and never moves the risk level towards high. *)
Theorem X9_classification_monotone (f : Field) (fd fd' : FormData) :
  wellFormed fd -> wellFormed fd' -> agreeExcept f fd fd' ->
  leq (value f fd) (value f fd') ->
  (prediction (predict fd) = Pass -> prediction (predict fd') = Pass) /\
  (riskRank (riskLevel (predict fd)) <= riskRank (riskLevel (predict fd')))%nat.
Proof.
  intros W W' A L. cbn [predict prediction riskLevel].
  apply classification_mono, probability_mono. now apply (score_monotone f).
Qed.

Lemma X8_score_monotone_witness :
  leq (score Spec.row2) (score Spec.row2_attending).
Proof.
  apply (X8_score_monotone Attendance Spec.row2 Spec.row2_attending).
  - intros []; reflexivity.
  - intros []; reflexivity.
  - intros [] N; try reflexivity. now elim N.
  - reflexivity.
Defined.

Lemma X9_classification_monotone_witness :
  (prediction (predict Spec.row2) = Pass ->
   prediction (predict Spec.row2_attending) = Pass) /\
  (riskRank (riskLevel (predict Spec.row2)) <=
   riskRank (riskLevel (predict Spec.row2_attending)))%nat.
Proof.
  apply (X9_classification_monotone Attendance Spec.row2 Spec.row2_attending).
  - intros []; reflexivity.
  - intros []; reflexivity.
  - intros [] N; try reflexivity. now elim N.
  - reflexivity.
Defined.

(** *** Saturation of the probability *)

(** Numbers that compare equal are the same number, zeros apart. *)
Lemma leq_antisym (x y : number) :
  pos_finite x = true \/ pos_finite y = true ->
  leq x y -> (x <? y) = false -> x = y.
Proof.
  unfold pos_finite. rewrite leq_SF, ltb_spec. unfold SFleb, SFltb.
  intros P L N. apply Prim2SF_inj.
  destruct (Prim2SF x) as [sx|sx| |sx mx ex], (Prim2SF y) as [sy|sy| |sy my ey];
    try (destruct P; discriminate);
    try (destruct sx; discriminate); try (destruct sy; discriminate).
  destruct sx, sy; try discriminate; try (destruct P; discriminate).
  cbn in L, N.
  change (PosDef.Pos.compare_cont Eq mx my) with (Pos.compare mx my) in L, N.
  destruct (Z.compare_spec ex ey) as [->|_|_]; try congruence.
  destruct (Pos.compare_spec mx my) as [->|_|_]; congruence.
Qed.

Lemma clamp_floor (q : number) : leq q 0.1 -> Spec.clamp q 0.1 0.95 = 0.1.
Proof.
  intros L. unfold Spec.clamp. destruct (q <? 0.1) eqn:A; trivial.
  rewrite (leq_antisym q 0.1); trivial. now right.
Qed.

Lemma clamp_ceiling (q : number) : leq 0.95 q -> Spec.clamp q 0.1 0.95 = 0.95.
Proof.
  intros L. unfold Spec.clamp. destruct (q <? 0.1) eqn:A.
  - pose proof (leq_lt_trans _ _ _ L A) as C. vm_compute in C. discriminate C.
  - destruct (0.95 <? q) eqn:B; trivial.
    symmetry. apply leq_antisym; trivial. now left.
Qed.

(** X10: the probability saturates.  A score of at most 10 gives exactly
    0.1, with the prediction Fail, a high risk and the confidence 10.0%; a
    score of at least 95 gives exactly 0.95, with the prediction Pass, a low
    risk and the confidence 95.0%. *)
Theorem X10_probability_saturates (fd : FormData) :
  (leq (score fd) 10 ->
   probability (predict fd) = 0.1 /\ prediction (predict fd) = Fail /\
   riskLevel (predict fd) = high /\
   confidence (predict fd) = Some "10.0%"%string) /\
  (leq 95 (score fd) ->
   probability (predict fd) = 0.95 /\ prediction (predict fd) = Pass /\
   riskLevel (predict fd) = low /\
   confidence (predict fd) = Some "95.0%"%string).
Proof.
  unfold confidence. cbn [predict probability prediction riskLevel].
  rewrite probability_clamp. split; intros L.
  - rewrite clamp_floor; [repeat split|].
    apply (div_mono 100 (score fd) 10 eq_refl L).
  - rewrite clamp_ceiling; [repeat split|].
    apply (div_mono 100 95 (score fd) eq_refl L).
Qed.

Lemma X10_probability_saturates_witness :
  let lowest :=
    {| studentId := "s"; semester := "1"; attendancePct := "20";
       internalMarksAvg := "8"; culturalActivityScore := "";
       classParticipationScore := ""; sportsActivityScore := "";
       curricularActivityScore := "" |} in
  let highest :=
    {| studentId := "s"; semester := "1"; attendancePct := "100";
       internalMarksAvg := "100"; culturalActivityScore := "10";
       classParticipationScore := "10"; sportsActivityScore := "10";
       curricularActivityScore := "10" |} in
  (probability (predict lowest) = 0.1 /\ prediction (predict lowest) = Fail /\
   riskLevel (predict lowest) = high /\
   confidence (predict lowest) = Some "10.0%"%string) /\
  (probability (predict highest) = 0.95 /\ prediction (predict highest) = Pass /\
   riskLevel (predict highest) = low /\
   confidence (predict highest) = Some "95.0%"%string).
Proof.
  split.
  - apply (X10_probability_saturates
             {| studentId := "s"; semester := "1"; attendancePct := "20";
                internalMarksAvg := "8"; culturalActivityScore := "";
                classParticipationScore := ""; sportsActivityScore := "";
                curricularActivityScore := "" |}).
    reflexivity.
  - apply (X10_probability_saturates
             {| studentId := "s"; semester := "1"; attendancePct := "100";
                internalMarksAvg := "100"; culturalActivityScore := "10";
                classParticipationScore := "10"; sportsActivityScore := "10";
                curricularActivityScore := "10" |}).
    reflexivity.
Defined.

(** *** What [toFixed] shows *)

Local Open Scope Z_scope.

Lemma nearest_scaled_shift (f : Z) (m : positive) (e j : Z) :
  0 <= f -> 0 <= j -> 0 <= e + j ->
  nearest_scaled f m e =
    (2 * (Zpos m * 2 ^ (e + j)) * 10 ^ f + 2 ^ j) / (2 * 2 ^ j).
Proof.
  intros Hf Hj He. unfold nearest_scaled.
  assert (Pj : 0 < 2 ^ j) by (apply Z.pow_pos_nonneg; lia).
  assert (Pf : 0 < 10 ^ f) by (apply Z.pow_pos_nonneg; lia).
  destruct e as [|p|k].
  - rewrite Z.pow_0_r, Z.add_0_l, Z.mul_1_r.
    apply Z.div_unique with (2 ^ j); [lia | ring].
  - rewrite Z.pow_add_r by lia.
    assert (0 < 2 ^ Zpos p) by (apply Z.pow_pos_nonneg; lia).
    apply Z.div_unique with (2 ^ j); [lia | ring].
  - assert (Pk : 0 < 2 ^ Zpos k) by (apply Z.pow_pos_nonneg; lia).
    assert (Pd : 0 < 2 ^ (Z.neg k + j)) by (apply Z.pow_pos_nonneg; lia).
    assert (E : 2 ^ j = 2 ^ Zpos k * 2 ^ (Z.neg k + j)).
    { rewrite <- Z.pow_add_r by lia. f_equal. lia. }
    rewrite E.
    replace (2 * (Z.pos m * 2 ^ (Z.neg k + j)) * 10 ^ f +
             2 ^ Z.pos k * 2 ^ (Z.neg k + j))
      with ((2 * Z.pos m * 10 ^ f + 2 ^ Z.pos k) * 2 ^ (Z.neg k + j)) by ring.
    replace (2 * (2 ^ Z.pos k * 2 ^ (Z.neg k + j)))
      with (2 * 2 ^ Z.pos k * 2 ^ (Z.neg k + j)) by ring.
    rewrite Z.div_mul_cancel_r by lia. reflexivity.
Qed.

Lemma at_least_shift (b : Z) (m : positive) (e j : Z) :
  0 <= j -> 0 <= e + j ->
  at_least b m e = (b * 2 ^ j <=? Zpos m * 2 ^ (e + j)).
Proof.
  intros Hj He. unfold at_least.
  assert (Pj : 0 < 2 ^ j) by (apply Z.pow_pos_nonneg; lia).
  destruct e as [|p|k].
  - rewrite Z.pow_0_r, Z.add_0_l, Z.mul_1_r.
    destruct (Z.leb_spec b (Zpos m)), (Z.leb_spec (b * 2 ^ j) (Zpos m * 2 ^ j));
      trivial; nia.
  - rewrite Z.pow_add_r by lia.
    destruct (Z.leb_spec b (Zpos m * 2 ^ Zpos p)),
             (Z.leb_spec (b * 2 ^ j) (Zpos m * (2 ^ Zpos p * 2 ^ j)));
      trivial; nia.
  - assert (Pk : 0 < 2 ^ Zpos k) by (apply Z.pow_pos_nonneg; lia).
    assert (Pd : 0 < 2 ^ (Z.neg k + j)) by (apply Z.pow_pos_nonneg; lia).
    assert (E : 2 ^ j = 2 ^ Zpos k * 2 ^ (Z.neg k + j)).
    { rewrite <- Z.pow_add_r by lia. f_equal. lia. }
    rewrite E.
    destruct (Z.leb_spec (b * 2 ^ Zpos k) (Zpos m)),
             (Z.leb_spec (b * (2 ^ Zpos k * 2 ^ (Z.neg k + j)))
                         (Zpos m * 2 ^ (Z.neg k + j)));
      trivial; nia.
Qed.

(** The nearest integer, from the value in units of the least subnormal. *)
Lemma nearest_Zval (f : nat) (x : number) :
  finite_or_zero (Prim2SF x) -> leq 0 x ->
  let j := - SpecFloat.emin prec emax in
  let V := Zval prec emax (Prim2SF x) in
  0 <= V /\
  nearest f x = (2 * V * 10 ^ Z.of_nat f + 2 ^ j) / (2 * 2 ^ j) /\
  (forall b m e, Prim2SF x = S754_finite false m e ->
     at_least b m e = (b * 2 ^ j <=? V)).
Proof.
  intros F L j V. pose proof (Prim2SF_valid x) as Val.
  rewrite leq_SF in L. change (Prim2SF 0) with (S754_zero false) in L.
  unfold nearest, V.
  assert (Hj : 0 <= j) by (unfold j; now compute).
  assert (Pj : 0 < 2 ^ j) by (apply Z.pow_pos_nonneg; lia).
  destruct (Prim2SF x) as [s| | |s m e]; try contradiction.
  - cbn [Zval]. split; [lia|]. split; [|intros b m e E; discriminate E].
    symmetry. apply Z.div_small. lia.
  - destruct s; [discriminate L|].
    destruct (valid_finite prec emax prec_gt_1 _ _ _ Val) as (B & _).
    cbn [Zval cond_Zopp].
    replace (e - SpecFloat.emin prec emax) with (e + j) by (unfold j; lia).
    assert (0 <= e + j) by (unfold j; lia).
    assert (0 < 2 ^ (e + j)) by (apply Z.pow_pos_nonneg; lia).
    split; [nia|]. split.
    + apply nearest_scaled_shift; lia.
    + intros b m' e' E. injection E as <- <-.
      apply at_least_shift; lia.
Qed.

Lemma leq_zero_finite (x hi : number) :
  leq 0 x -> leq x hi -> is_finite hi = true ->
  finite_or_zero (Prim2SF x) /\ finite_or_zero (Prim2SF hi) /\ leq 0 hi.
Proof.
  intros L U F. split; [|split].
  - apply is_finite_SF. now apply (bounded_finite 0%float hi).
  - now apply is_finite_SF.
  - now apply leq_trans with x.
Qed.

Lemma nearest_mono (f : nat) (x y : number) :
  leq 0 x -> leq x y -> is_finite y = true -> nearest f x <= nearest f y.
Proof.
  intros L U F. destruct (leq_zero_finite x y L U F) as (Fx & Fy & Ly).
  destruct (nearest_Zval f x Fx L) as (Px & -> & _).
  destruct (nearest_Zval f y Fy Ly) as (Py & -> & _).
  assert (O : Zval prec emax (Prim2SF x) <= Zval prec emax (Prim2SF y)).
  { apply (SFleb_Zval prec emax prec_gt_1 prec_lt_emax); trivial; try apply Prim2SF_valid.
    now apply leq_SF. }
  set (j := - SpecFloat.emin prec emax).
  assert (Pj : 0 < 2 ^ j) by (apply Z.pow_pos_nonneg; unfold j; now compute).
  assert (Pf : 0 < 10 ^ Z.of_nat f) by (apply Z.pow_pos_nonneg; lia).
  apply Z.div_le_mono; nia.
Qed.

(** Below a number on which [toFixed] gives digits, it gives the digits of
    the nearest integer. *)
Lemma toFixed_nonneg (f : nat) (x hi : number) :
  leq 0 x -> leq x hi -> is_finite hi = true -> toFixed hi f <> None ->
  toFixed x f = Some (fixed_digits f (nearest f x)).
Proof.
  intros L U F T. destruct (leq_zero_finite x hi L U F) as (Fx & Fh & Lh).
  destruct (nearest_Zval f x Fx L) as (Px & _ & Ax).
  destruct (nearest_Zval f hi Fh Lh) as (Ph & _ & Ah).
  assert (O : Zval prec emax (Prim2SF x) <= Zval prec emax (Prim2SF hi)).
  { apply (SFleb_Zval prec emax prec_gt_1 prec_lt_emax); trivial; try apply Prim2SF_valid.
    now apply leq_SF. }
  assert (P21 : 0 < 10 ^ 21) by now compute.
  assert (PE : 0 < 2 ^ (- SpecFloat.emin prec emax))
    by (apply Z.pow_pos_nonneg; now compute).
  unfold toFixed, nearest in *. rewrite leq_SF in L.
  change (Prim2SF 0%float) with (S754_zero false) in L.
  destruct (Prim2SF x) as [s| | |s m e]; try contradiction; trivial.
  destruct s; [discriminate L|].
  rewrite (Ax _ m e eq_refl).
  destruct (Z.leb_spec (10 ^ 21 * 2 ^ (- SpecFloat.emin prec emax))
              (Zval prec emax (S754_finite false m e))) as [G|G]; trivial.
  exfalso. apply T.
  rewrite leq_SF in Lh. change (Prim2SF 0%float) with (S754_zero false) in Lh.
  destruct (Prim2SF hi) as [sh| | |sh mh eh]; try contradiction.
  - change (Zval prec emax (S754_zero sh)) with 0 in O. nia.
  - destruct sh; [discriminate Lh|].
    rewrite (Ah _ mh eh eq_refl).
    destruct (Z.leb_spec (10 ^ 21 * 2 ^ (- SpecFloat.emin prec emax))
                (Zval prec emax (S754_finite false mh eh))); trivial.
    lia.
Qed.

Lemma range_check (P : Z -> bool) (lo : Z) (len : nat) :
  forallb P (map (fun i => lo + Z.of_nat i) (seq 0 len)) = true ->
  forall n, lo <= n < lo + Z.of_nat len -> P n = true.
Proof.
  intros H n Hn. rewrite forallb_forall in H. apply H.
  apply in_map_iff. exists (Z.to_nat (n - lo)). split; [lia|].
  apply in_seq. lia.
Qed.

(** Three digits are shown with a point before the last. *)
Lemma fixed_digits_tenths (n : Z) :
  0 <= n <= 1000 ->
  fixed_digits 1 n =
    String.append (digits_of (n / 10))
      (String.append "." (digits_of (n mod 10))).
Proof.
  intros Hn.
  apply String.eqb_eq.
  apply (range_check
           (fun n => String.eqb (fixed_digits 1 n)
                       (String.append (digits_of (n / 10))
                          (String.append "." (digits_of (n mod 10)))))
           0 1001); [vm_compute; reflexivity | lia].
Qed.

Local Close Scope Z_scope.

(** A number between two bounds that are not negative shows the digits of
    an integer between those of the bounds. *)
Lemma shown_within (f : nat) (lo hi x : number) :
  leq 0 lo -> is_finite hi = true -> toFixed hi f <> None ->
  within lo hi x ->
  exists n, (nearest f lo <= n <= nearest f hi)%Z /\
            toFixed x f = Some (fixed_digits f n).
Proof.
  intros L0 F T [L U]. exists (nearest f x).
  assert (Lx : leq 0 x) by now apply leq_trans with lo.
  repeat split.
  - apply nearest_mono; trivial. now apply (bounded_finite 0 hi).
  - now apply nearest_mono.
  - now apply (toFixed_nonneg f x hi).
Qed.

(** X11: whenever the score is a number, the value of the probability bar
    lies between 10 and 95, and the confidence line shows a percentage from
    10.0 to 95.0, with one decimal: the digits of an integer number of
    tenths between 100 and 950. *)
Theorem X11_confidence_shown (fd : FormData) :
  is_nan (score fd) = false ->
  within 10 95 (probability (predict fd) * 100) /\
  exists n, (100 <= n <= 950)%Z /\
    confidence (predict fd) =
      Some (String.append
              (String.append (digits_of (n / 10))
                 (String.append "." (digits_of (n mod 10)))) "%").
Proof.
  intros N. unfold confidence. cbn [predict probability].
  rewrite probability_clamp.
  assert (N' : is_nan (score fd / 100) = false).
  { apply (leq_not_nan (score fd / 100) (score fd / 100)).
    apply div_mono; [reflexivity | now apply leq_refl]. }
  destruct (clamp_range (score fd / 100)) as (_ & _ & R).
  specialize (R N').
  set (p := Spec.clamp (score fd / 100) 0.1 0.95) in *.
  assert (W : within (0.1 * 100) (0.95 * 100) (p * 100))
    by (destruct R; split; now apply mul_mono).
  split; [exact W|].
  destruct (shown_within 1 (0.1 * 100) (0.95 * 100) (p * 100))
    as (n & Hn & E); trivial; try reflexivity.
  { vm_compute. discriminate. }
  change (nearest 1 (0.1 * 100)) with 100%Z in Hn.
  change (nearest 1 (0.95 * 100)) with 950%Z in Hn.
  exists n. split; trivial.
  rewrite E. cbn [option_map]. now rewrite fixed_digits_tenths by lia.
Qed.

Lemma X11_confidence_shown_witness :
  within 10 95 (probability (predict Spec.row2) * 100) /\
  exists n, (100 <= n <= 950)%Z /\
    confidence (predict Spec.row2) =
      Some (String.append
              (String.append (digits_of (n / 10))
                 (String.append "." (digits_of (n mod 10)))) "%").
Proof. apply (X11_confidence_shown Spec.row2). reflexivity. Defined.

(** X12: for inputs in their declared ranges each of the three factor rows
    shows a number from 0.0 to 100.0 with one decimal. *)
Theorem X12_factor_rows_shown (fd : FormData) :
  inRange fd ->
  Forall (fun fa => exists n, (0 <= n <= 1000)%Z /\
            factorText fa =
              Some (String.append (digits_of (n / 10))
                      (String.append "." (digits_of (n mod 10)))))
         (topFactors (predict fd)).
Proof.
  intros H. apply (Forall_impl _ (P := fun fa => within 0 100 (impact fa)));
    [|now apply impacts_within].
  intros fa W. unfold factorText.
  destruct (shown_within 1 0 100 (impact fa)) as (n & Hn & E);
    trivial; try reflexivity.
  { vm_compute. discriminate. }
  change (nearest 1 0) with 0%Z in Hn. change (nearest 1 100) with 1000%Z in Hn.
  exists n. split; trivial. now rewrite E, fixed_digits_tenths.
Qed.

Lemma X12_factor_rows_shown_witness :
  Forall (fun fa => exists n, (0 <= n <= 1000)%Z /\
            factorText fa =
              Some (String.append (digits_of (n / 10))
                      (String.append "." (digits_of (n mod 10)))))
         (topFactors (predict Spec.row2)).
Proof.
  apply (X12_factor_rows_shown Spec.row2).
  intros []; split; reflexivity.
Defined.

(** *** Runs of the prediction view *)






Local Close Scope float_scope.

(** ** Bulk-upload view *)

Import BulkUpload.

(** In every state a run can reach, an upload is in progress only while a
    file is selected. *)
Lemma no_file_not_uploading st pending :
  reachable st pending -> file st = None -> uploading st = false.
Proof.
  induction 1 as [|ev st pending R IH N|t st before after R IH]; trivial.
  destruct ev as [files| | |t]; simpl.
  - destruct files as [[|f rest]|]; simpl; trivial. discriminate.
  - unfold handleUpload. destruct (file st) eqn:F; simpl.
    + discriminate.
    + intros _. now apply IH.
  - trivial.
  - trivial.
Qed.

(** C6: with no file selected, Upload & Predict reports the error
    "Please select a file first" and does nothing else: the state is
    unchanged, so the selection stays absent and the uploading flag, false
    in every reachable such state, stays false. *)
Theorem C6_upload_without_file (st : BulkUpload.State) :
  file st = None ->
  handleUpload st =
    (st, {| toasts := [toast_error "Please select a file first"];
            timers := []; downloads := [] |}) /\
  file (fst (handleUpload st)) = None /\
  forall pending, reachable st pending ->
    uploading st = false /\ uploading (fst (handleUpload st)) = false.
Proof.
  intros F. unfold handleUpload. rewrite F. simpl.
  repeat split; trivial; eapply no_file_not_uploading; eauto.
Qed.

Lemma C6_upload_without_file_witness :
  handleUpload BulkUpload.initial =
    (BulkUpload.initial,
     {| toasts := [toast_error "Please select a file first"];
        timers := []; downloads := [] |}) /\
  file (fst (handleUpload BulkUpload.initial)) = None /\
  forall pending, reachable BulkUpload.initial pending ->
    uploading BulkUpload.initial = false /\
    uploading (fst (handleUpload BulkUpload.initial)) = false.
Proof. apply (C6_upload_without_file BulkUpload.initial). reflexivity. Defined.

(** C7: Download Template gives the same output in every state: the CSV of
    the header row and the three example rows, as a file named
    student_data_template.csv of media type text/csv; the state is left as
    it was. *)
Theorem C7_template_download (st : BulkUpload.State) :
  downloadTemplate st =
    (st, {| toasts := [toast_success "Template downloaded successfully!"];
            timers := [];
            downloads :=
              [ {| href := {| content := spec_csv; type := "text/csv" |};
                   download := "student_data_template.csv" |} ] |}) /\
  forall st', snd (downloadTemplate st') = snd (downloadTemplate st).
Proof. split; reflexivity. Qed.

(** C10: a file-change event that delivers no file leaves the selection and
    the uploading flag as they were and emits no notification; the selection
    changes only when the event carries at least one file, and then to its
    first file. *)
Theorem C10_file_change_frame (st : BulkUpload.State) :
  (forall files, files = None \/ files = Some [] ->
     handleFileChange files st = (st, quiet)) /\
  (forall files, file (fst (handleFileChange files st)) <> file st ->
     exists f rest, files = Some (f :: rest)) /\
  (forall f rest,
     fst (handleFileChange (Some (f :: rest)) st) =
       {| file := Some f; uploading := uploading st |}).
Proof.
  repeat split.
  - intros files [-> | ->]; reflexivity.
  - intros [[|f rest]|] H; simpl in H; try congruence. eauto.
Qed.

(** *** The upload cycle *)

Local Open Scope string_scope.

(** X15: an upload with a file selected shows no toast, sets the uploading
    flag, disables the button under the label Processing... and sets one
    timer of 2000 ms.  A file chosen meanwhile is shown as the selection,
    but when the timer fires it is the file of the upload that is reported
    as processed, and the later selection is cleared with it: the view is
    back in its initial state. *)
Theorem X15_upload_cycle (st : State) (f g : File) (rest : list File) :
  file st = Some f ->
  let st1 := fst (handleUpload st) in
  let st2 := fst (handleFileChange (Some (g :: rest)) st1) in
  exists t,
    snd (handleUpload st) =
      {| toasts := []; timers := [t]; downloads := [] |} /\
    delay t = 2000%Z /\
    uploading st1 = true /\ uploadDisabled st1 = true /\
    uploadLabel st1 = "Processing..." /\ caption st1 = name f /\
    caption st2 = name g /\ uploadDisabled st2 = true /\
    onTimeout t st2 =
      (initial,
       {| toasts := [toast_success ("Successfully processed " ++ name f)];
          timers := []; downloads := [] |}) /\
    caption (fst (onTimeout t st2)) = "Select a CSV file to upload".
Proof.
  intros F. cbn zeta. unfold handleUpload. rewrite F. cbn [fst snd].
  eexists. split; [reflexivity|].
  unfold uploadDisabled, uploadLabel, caption. cbn. try rewrite F.
  repeat split.
Qed.

Lemma X15_upload_cycle_witness :
  let st := {| file := Some {| name := "a.csv" |}; uploading := false |} in
  let st1 := fst (handleUpload st) in
  let st2 := fst (handleFileChange (Some [ {| name := "b.csv" |} ]) st1) in
  exists t,
    snd (handleUpload st) =
      {| toasts := []; timers := [t]; downloads := [] |} /\
    delay t = 2000%Z /\
    uploading st1 = true /\ uploadDisabled st1 = true /\
    uploadLabel st1 = "Processing..." /\ caption st1 = "a.csv" /\
    caption st2 = "b.csv" /\ uploadDisabled st2 = true /\
    onTimeout t st2 =
      (initial,
       {| toasts := [toast_success "Successfully processed a.csv"];
          timers := []; downloads := [] |}) /\
    caption (fst (onTimeout t st2)) = "Select a CSV file to upload".
Proof.
  apply (X15_upload_cycle
           {| file := Some {| name := "a.csv" |}; uploading := false |}
           {| name := "a.csv" |} {| name := "b.csv" |} []).
  reflexivity.
Defined.

(** X16: in every configuration the view can reach, by any interleaving of
    selections, uploads, template downloads and timers, the uploading flag
    is set only while a file is selected and a timer is pending. *)
Theorem X16_uploading_has_timer (st : State) (pending : list Timer) :
  reachable st pending ->
  uploading st = true -> file st <> None /\ pending <> [].
Proof.
  intros R U. split.
  - intros F. rewrite (no_file_not_uploading st pending R F) in U.
    discriminate U.
  - revert U.
    induction R as [|ev st pending R IH N|t st before after R IH].
    + discriminate.
    + destruct ev as [files| | |t]; cbn [handle].
      * destruct files as [[|f rest]|]; cbn [handleFileChange fst snd timers uploading];
          rewrite app_nil_r; exact IH.
      * unfold handleUpload. destruct (file st); cbn [fst snd timers uploading].
        -- intros _. destruct pending; discriminate.
        -- rewrite app_nil_r. exact IH.
      * cbn [downloadTemplate fst snd timers]. rewrite app_nil_r. exact IH.
      * now elim (N t).
    + discriminate.
Qed.

Lemma X16_uploading_has_timer_witness :
  let f := {| name := "a.csv" |} in
  file {| file := Some f; uploading := true |} <> None /\
  [ {| delay := 2000; captured := f |} ] <> [].
Proof.
  apply (X16_uploading_has_timer
           {| file := Some {| name := "a.csv" |}; uploading := true |}
           [ {| delay := 2000; captured := {| name := "a.csv" |} |} ]).
  - apply (reach_handler Upload
             {| file := Some {| name := "a.csv" |}; uploading := false |} []).
    + apply (reach_handler (FileChange (Some [ {| name := "a.csv" |} ]))
               initial []).
      * constructor.
      * discriminate.
    + discriminate.
  - reflexivity.
Defined.



Local Close Scope string_scope.

(** ** Cohort analytics view *)

(** C8: the three pie segments (Low, Medium, High Risk) sum to 183, the
    number on the "Total Students Analyzed" card, and the High Risk segment,
    18, is the number on the "High Risk Students" card. *)
Theorem C8_analytics_totals :
  map Analytics.name Analytics.riskDistribution =
    ["Low Risk"; "Medium Risk"; "High Risk"]%string /\
  Analytics.total (Analytics.pieValues Analytics.riskDistribution) = 183%Z /\
  Analytics.cardTitle "Total Students Analyzed" =
    Some (Analytics.show
            (Analytics.total (Analytics.pieValues Analytics.riskDistribution))) /\
  Analytics.segmentValue "High Risk" = Some 18%Z /\
  option_map Analytics.show (Analytics.segmentValue "High Risk") =
    Analytics.cardTitle "High Risk Students".
Proof. repeat split. Qed.
